(** * coral_reef/ml/utils.py: tiler, mask codec, geometry, weights, saver

    A shallow embedding of the framework-independent helpers of
    [coral_reef/ml/utils.py] and the properties claimed about them.

    Conventions of the embedding:
    - Python integers are [Z]; sizes taken from an array shape are [nat];
    - a NumPy array of rank two carries its shape and its rows; an array of
      rank three carries its shape and, per pixel, the list of its channels;
    - a Python exception is a value of [exn], and a call that may raise
      returns a [result];
    - a dictionary with string keys is a [gmap string _];
    - the file system is a finite map from path to file content. *)

From Stdlib Require Import ZArith QArith Lia Ascii String DecimalString.
From Stdlib Require DecimalZ DecimalPos.
From stdpp Require Import base option list sorting gmap strings.

Local Open Scope Z_scope.

(** ** Exceptions and results *)

Inductive exn : Type :=
  | ValueError
  | IndexError
  | ZeroDivisionError
  | FileNotFoundError
  | OverflowError
  | KeyError (key : string).

Inductive result (A : Type) : Type :=
  | Ok (a : A)
  | Raise (e : exn).
Arguments Ok {A} a.
Arguments Raise {A} e.

Definition result_bind {A B} (f : A → result B) (r : result A) : result B :=
  match r with
  | Ok a => f a
  | Raise e => Raise e
  end.

#[global] Instance result_mbind : MBind result := @result_bind.
#[global] Instance result_mret : MRet result := @Ok.

Definition raises {A} (r : result A) : Prop := ∃ e, r = Raise e.

(** ** Python's [range(start, stop, step)]

    [range] raises [ValueError] for a zero step; otherwise its length is
    computed as CPython does and its elements are [start + i * step]. *)

Definition range_len (start stop step : Z) : nat :=
  if 0 <? step then
    if start <? stop then Z.to_nat ((stop - start - 1) / step + 1) else 0%nat
  else
    if stop <? start then Z.to_nat ((start - stop - 1) / (- step) + 1) else 0%nat.

Definition range_elems (start step : Z) (n : nat) : list Z :=
  (λ i : nat, start + Z.of_nat i * step) <$> seq 0 n.

Definition py_range (start stop step : Z) : result (list Z) :=
  if step =? 0 then Raise ValueError
  else Ok (range_elems start step (range_len start stop step)).

(** ** Arrays of rank two and slicing *)

Record ndarray (A : Type) : Type := mk_ndarray {
  shape0 : nat;
  shape1 : nat;
  rows : list (list A)
}.
Arguments mk_ndarray {A} shape0 shape1 rows.
Arguments shape0 {A} n.
Arguments shape1 {A} n.
Arguments rows {A} n.

(** The rows agree with the shape; every array NumPy builds satisfies it. *)
Definition wf_ndarray {A} (a : ndarray A) : Prop :=
  length (rows a) = shape0 a ∧ Forall (λ r, length r = shape1 a) (rows a).

Definition get2 {A} (a : ndarray A) (y x : nat) : option A :=
  rows a !! y ≫= λ r, r !! x.

(** One bound of a slice [a:b] over an axis of length [n]: a negative bound
    counts from the end, and the bound is clamped to [0, n]. *)
Definition slice_bound (n : nat) (i : Z) : Z :=
  if i <? 0 then Z.max 0 (i + Z.of_nat n) else Z.min i (Z.of_nat n).

Definition slice_lo (n : nat) (start : Z) : nat := Z.to_nat (slice_bound n start).

Definition slice_len (n : nat) (start stop : Z) : nat :=
  Z.to_nat (slice_bound n stop - slice_bound n start).

Definition py_slice {A} (start stop : Z) (l : list A) : list A :=
  take (slice_len (length l) start stop) (drop (slice_lo (length l) start) l).

(** [image[y0:y1, x0:x1]] *)
Definition crop {A} (image : ndarray A) (y0 y1 x0 x1 : Z) : ndarray A :=
  {| shape0 := slice_len (shape0 image) y0 y1;
     shape1 := slice_len (shape1 image) x0 x1;
     rows := py_slice x0 x1 <$> py_slice y0 y1 (rows image) |}.

(** ** The window tiler [cut_windows] *)

Section tiler.
Context {A : Type}.

(** The two lists the function builds: the cuts and their start points
    [[start_x, start_y]]. *)
Definition tiles : Type := list (ndarray A) * list (Z * Z).

(** [len(start_points) > 0 and v == start_points[-1][axis]] *)
Definition done_before (start_points : list (Z * Z)) (axis : Z * Z → Z) (v : Z) : bool :=
  match last start_points with
  | Some p => v =? axis p
  | None => false
  end.

(** The body of the inner [for y in ...] loop, with its [break].  [np.min]
    over the two integers is [Z.min] as long as both fit NumPy's 64-bit
    integers; from [2 ^ 63] on NumPy leaves them, the bound it returns is no
    integer any more and the slice raises [TypeError].  The properties that
    depend on it are stated under [within_exact_range]. *)
Fixpoint cut_rows (image : ndarray A) (window_size h start_x end_x : Z)
    (ys : list Z) (st : tiles) : tiles :=
  match ys with
  | [] => st
  | y :: ys' =>
      let end_y := Z.min (y + window_size) h in
      let start_y := end_y - window_size in
      if done_before st.2 snd start_y then st
      else cut_rows image window_size h start_x end_x ys'
             (st.1 ++ [crop image start_y end_y start_x end_x],
              st.2 ++ [(start_x, start_y)])
  end.

(** The body of the outer [for x in ...] loop, with its [break]; [np.min] as
    in [cut_rows]. *)
Fixpoint cut_columns (image : ndarray A) (window_size step_size h w : Z)
    (xs : list Z) (st : tiles) : result tiles :=
  match xs with
  | [] => Ok st
  | x :: xs' =>
      let end_x := Z.min (x + window_size) w in
      let start_x := end_x - window_size in
      if done_before st.2 fst start_x then Ok st
      else
        ys ← py_range 0 (h - step_size) step_size;
        cut_columns image window_size step_size h w xs'
          (cut_rows image window_size h start_x end_x ys st)
  end.

(** [int(window_size / 2)] truncates toward zero.  The division is a
    floating-point one: it is exact, and so is this definition, for window
    sizes up to [2 ^ 53] in absolute value; beyond, the quotient is rounded
    first, and from about [1.8e308] on the division raises [OverflowError]. *)
Definition default_step (window_size : Z) : Z := Z.quot window_size 2.

Definition effective_step (window_size : Z) (step_size : option Z) : Z :=
  match step_size with
  | None => default_step window_size
  | Some s => s
  end.

Definition cut_windows (image : ndarray A) (window_size : Z)
    (step_size : option Z) : result tiles :=
  let step_size := effective_step window_size step_size in
  let h := Z.of_nat (shape0 image) in
  let w := Z.of_nat (shape1 image) in
  xs ← py_range 0 (w - step_size) step_size;
  cut_columns image window_size step_size h w xs ([], []).

(** The inputs on which the definitions above follow the code exactly: the
    window size and the two sides of the image are at most [2 ^ 53] in
    absolute value, so that [window_size / 2] is an exact float and every sum
    [x + window_size] handed to [np.min] fits a 64-bit integer. *)
Definition within_exact_range (image : ndarray A) (window_size : Z) : Prop :=
  - 2 ^ 53 ≤ window_size ≤ 2 ^ 53 ∧
  Z.of_nat (shape0 image) ≤ 2 ^ 53 ∧ Z.of_nat (shape1 image) ≤ 2 ^ 53.

End tiler.

(** A constant image, as [np.full((h, w), v)] builds it. *)
Definition full {A} (h w : nat) (v : A) : ndarray A :=
  mk_ndarray h w (replicate h (replicate w v)).

(** Pixel [(x, y)] lies inside the square window of side [window_size] whose
    upper left corner is the start point [p]. *)
Definition in_window (window_size : Z) (p : Z * Z) (x y : Z) : bool :=
  (p.1 <=? x) && (x <? p.1 + window_size) && (p.2 <=? y) && (y <? p.2 + window_size).

Definition covered (window_size : Z) (start_points : list (Z * Z)) (x y : Z) : bool :=
  existsb (λ p, in_window window_size p x y) start_points.

(** ** The mask and colour codec *)

(** What NumPy 1.x stores when a Python integer that fits a C long is
    assigned into an array of [np.uint8]: the value modulo 256. *)
Definition uint8 (z : Z) : Z := z mod 256.

(** The Python integers that NumPy 1.x converts to a C long of 64 bits;
    the conversion of any other raises [OverflowError]. *)
Definition fits_c_long (z : Z) : bool := (- 2 ^ 63 <=? z) && (z <? 2 ^ 63).

(** Every colour of the mapping fits a C long. *)
Definition colours_fit_c_long (colour_mapping : gmap string Z) : Prop :=
  map_Forall (λ _ c, - 2 ^ 63 ≤ c < 2 ^ 63) colour_mapping.

(** [d[k]] *)
Definition getitem {V} (d : gmap string V) (k : string) : result V :=
  match d !! k with
  | Some v => Ok v
  | None => Raise (KeyError k)
  end.

(** [sorted(d.keys())]: strings are compared character by character. *)
Definition sorted_keys {V} (d : gmap string V) : list string :=
  merge_sort String.le (elements (dom d)).

Definition enumerate {B} (l : list B) : list (nat * B) :=
  zip (seq 0 (length l)) l.

(** A [for] loop whose body may raise. *)
Fixpoint for_each {S B} (items : list B) (body : S → B → result S) (s : S) : result S :=
  match items with
  | [] => Ok s
  | b :: items' => s' ← body s b; for_each items' body s'
  end.

(** Element-wise application over the rows of an array. *)
Definition map2d {B C} (f : B → C) (l : list (list B)) : list (list C) :=
  fmap (M := list) (fmap (M := list) f) l.

Definition zip2d {B C D} (f : B → C → D) (l : list (list B)) (k : list (list C))
    : list (list D) :=
  zip_with (zip_with f) l k.

(** [a == c], element by element *)
Definition eq_scalar (a : ndarray Z) (c : Z) : ndarray bool :=
  mk_ndarray (shape0 a) (shape1 a) (map2d (λ p, p =? c) (rows a)).

(** The store of [a[cond] = v] on an array of [np.uint8], for a value [v]
    that fits a C long; [cond] has the shape of [a] at every use below.  It
    is used as it stands where [v] is an index of [enumerate], which is below
    [2 ^ 63] for every dictionary that exists. *)
Definition assign_where (a : ndarray Z) (cond : ndarray bool) (v : Z) : ndarray Z :=
  mk_ndarray (shape0 a) (shape1 a)
    (zip2d (λ old (b : bool), if b then uint8 v else old) (rows a) (rows cond)).

(** [a[cond] = v] on an array of [np.uint8] for any Python integer [v]:
    NumPy 1.x first converts [v] to a C long, which raises [OverflowError]
    when [v] does not fit, whatever [cond] selects, and then stores it
    modulo 256. *)
Definition assign_where_int (a : ndarray Z) (cond : ndarray bool) (v : Z)
    : result (ndarray Z) :=
  if fits_c_long v then Ok (assign_where a cond v) else Raise OverflowError.

(** [np.zeros(a.shape[:2]).astype(np.uint8)] *)
Definition zeros_like {B} (a : ndarray B) : ndarray Z :=
  full (shape0 a) (shape1 a) 0.

Definition colour_mask_to_class_id_mask (colour_mask : ndarray Z)
    (colour_mapping : gmap string Z) : result (ndarray Z) :=
  for_each (enumerate (sorted_keys colour_mapping))
    (λ class_id_mask '(i, k),
       c ← getitem colour_mapping k;
       Ok (assign_where class_id_mask (eq_scalar colour_mask c) (Z.of_nat i)))
    (zeros_like colour_mask).

Definition class_id_mask_to_colour_mask (class_id_mask : ndarray Z)
    (colour_mapping : gmap string Z) : result (ndarray Z) :=
  for_each (enumerate (sorted_keys colour_mapping))
    (λ colour_mask '(i, k),
       c ← getitem colour_mapping k;
       assign_where_int colour_mask (eq_scalar class_id_mask (Z.of_nat i)) c)
    (zeros_like class_id_mask).

(** Arrays of rank three: per pixel, the list of its channels. *)
Record ndarray3 (A : Type) : Type := mk_ndarray3 {
  dim0 : nat;
  dim1 : nat;
  dim2 : nat;
  cells : list (list (list A))
}.
Arguments mk_ndarray3 {A} dim0 dim1 dim2 cells.
Arguments dim0 {A} n.
Arguments dim1 {A} n.
Arguments dim2 {A} n.
Arguments cells {A} n.

Definition wf_ndarray3 {A} (a : ndarray3 A) : Prop :=
  length (cells a) = dim0 a ∧
  Forall (λ r, length r = dim1 a ∧ Forall (λ c, length c = dim2 a) r) (cells a).

Definition get3 {A} (a : ndarray3 A) (y x : nat) : option (list A) :=
  cells a !! y ≫= λ r, r !! x.

(** [a[:, :, i]] for [0 <= i]: out of range raises [IndexError]. *)
Definition channel (a : ndarray3 Z) (i : nat) : result (ndarray Z) :=
  if decide (i < dim2 a)%nat
  then Ok (mk_ndarray (dim0 a) (dim1 a) (map2d (λ c : list Z, c !!! i) (cells a)))
  else Raise IndexError.

(** [a[cond, i] = v] on an array of floats *)
Definition assign_channel_where (a : ndarray3 Z) (cond : ndarray bool) (i : nat) (v : Z)
    : result (ndarray3 Z) :=
  if decide (i < dim2 a)%nat
  then Ok (mk_ndarray3 (dim0 a) (dim1 a) (dim2 a)
             (zip2d (λ (c : list Z) (b : bool), if b then <[i := v]> c else c)
                (cells a) (rows cond)))
  else Raise IndexError.

Definition mask_to_one_hot (mask : ndarray Z) (colour_mapping : gmap string Z)
    : result (ndarray3 Z) :=
  let n := length (elements (dom colour_mapping)) in
  for_each (enumerate (sorted_keys colour_mapping))
    (λ one_hot '(i, k),
       c ← getitem colour_mapping k;
       assign_channel_where one_hot (eq_scalar mask c) i 1)
    (mk_ndarray3 (shape0 mask) (shape1 mask) n
       (replicate (shape0 mask) (replicate (shape1 mask) (replicate n 0)))).

Definition one_hot_to_mask (one_hot : ndarray3 Z) (colour_mapping : gmap string Z)
    : result (ndarray Z) :=
  for_each (enumerate (sorted_keys colour_mapping))
    (λ mask '(i, k),
       c ← getitem colour_mapping k;
       ch ← channel one_hot i;
       assign_where_int mask (eq_scalar ch 1) c)
    (full (dim0 one_hot) (dim1 one_hot) 0).

(** Mappings used as examples: two classes with colours of eight bits; the
    same with a colour of more than eight bits; three classes. *)
Definition reef_mapping : gmap string Z :=
  {[ "coral"%string := 7; "sand"%string := 5 ]}.

Definition wide_mapping : gmap string Z :=
  {[ "coral"%string := 7; "sand"%string := 300 ]}.

Definition three_mapping : gmap string Z :=
  {[ "algae"%string := 3; "coral"%string := 7; "sand"%string := 5 ]}.

(** Two classes, the second with a colour that does not fit a C long. *)
Definition huge_mapping : gmap string Z :=
  {[ "coral"%string := 7; "sand"%string := 2 ^ 64 + 5 ]}.

(** 257 classes named ["AA"], ["AB"], ... in sorted order; class [n] has
    colour [n], except the last, class 256, which has colour 5. *)
Definition class_name (n : nat) : string :=
  String (ascii_of_nat (65 + n / 16)) (String (ascii_of_nat (65 + n mod 16)) EmptyString).

Definition many_mapping : gmap string Z :=
  list_to_map ((λ n : nat, (class_name n, if decide (n = 256)%nat then 5 else Z.of_nat n))
                 <$> seq 0 257).

(** Every element is a value of [np.uint8]. *)
Definition all_uint8 (a : ndarray Z) : Prop :=
  Forall (Forall (λ v, 0 ≤ v < 256)) (rows a).

(** *** The loops read pixel by pixel

    Each codec loop assigns through a mask computed from one array, so the
    value of an output pixel depends on the input pixel alone.  [pointwise]
    is the array obtained by applying a function at every pixel; the
    functions below are the loops run on one pixel.  They are proved equal
    to the array code in [colour_mask_to_class_id_mask_pointwise] and its
    siblings. *)

Definition pointwise {B C} (f : B → C) (a : ndarray B) : ndarray C :=
  mk_ndarray (shape0 a) (shape1 a) (map2d f (rows a)).

(** An array of rank three seen as a grid of cells. *)
Definition as_cells {B} (a : ndarray3 B) : ndarray (list B) :=
  mk_ndarray (dim0 a) (dim1 a) (cells a).

(** One pass of a loop over the classes in which the last class whose test
    holds decides the value. *)
Definition last_write {B} (test : B → bool) (val : B → Z) (items : list B) (init : Z) : Z :=
  fold_left (λ v b, if test b then val b else v) items init.

Definition class_id_of_colour (colour_mapping : gmap string Z) (p : Z) : Z :=
  last_write (λ '(i, k), p =? colour_mapping !!! k) (λ '(i, k), uint8 (Z.of_nat i))
    (enumerate (sorted_keys colour_mapping)) 0.

Definition colour_of_class_id (colour_mapping : gmap string Z) (v : Z) : Z :=
  last_write (λ '(i, k), v =? Z.of_nat i) (λ '(i, k), uint8 (colour_mapping !!! k))
    (enumerate (sorted_keys colour_mapping)) 0.

Definition colour_of_cell (colour_mapping : gmap string Z) (cell : list Z) : Z :=
  last_write (λ '(i, k), cell !!! i =? 1) (λ '(i, k), uint8 (colour_mapping !!! k))
    (enumerate (sorted_keys colour_mapping)) 0.

(** ** Class weights

    The statistics file is taken as already read: [stats] is what
    [json.load] returned.  The floating-point operations of NumPy are the
    parameters [f_add], [f_log] and [f_div]; [f_one] is the float 1. *)

Section weights.
Context {F : Type} (f_one : F) (f_add f_div : F → F → F) (f_log : F → F).

Definition class_weight (modifier share : F) : F :=
  f_div f_one (f_log (f_add modifier share)).

Definition calculate_class_weights (stats : gmap string (gmap string F))
    (colour_mapping : gmap string Z) (modifier : F) : result (list F) :=
  shares ← mapM (λ c, entry ← getitem stats c; getitem entry "share"%string)
                (sorted_keys colour_mapping);
  Ok (class_weight modifier <$> shares).
End weights.

(** To run the function on an example, the float operations are read as
    builders of the formula they compute. *)
Definition sym_add (a b : string) : string := ("(" +:+ a +:+ " + " +:+ b +:+ ")")%string.
Definition sym_div (a b : string) : string := (a +:+ " / " +:+ b)%string.
Definition sym_log (a : string) : string := ("log" +:+ a)%string.

Definition half_stats : gmap string (gmap string string) :=
  {[ "coral"%string := {[ "share"%string := "0.5"%string ]} ]}.

Definition coral_mapping : gmap string Z := {[ "coral"%string := 7 ]}.

(** ** Rectangle geometry *)

(** A rectangle is the list [[x1, y1, x2, y2]]; [r0] to [r3] are its items. *)
Record rect : Type := Rect { r0 : Z; r1 : Z; r2 : Z; r3 : Z }.

Definition calc_rect_size (r : rect) : Z :=
  (r3 r - r1 r) * (r2 r - r0 r).

Definition calc_intersection (rect1 rect2 : rect) : Z :=
  let x1 := Z.max (r0 rect1) (r0 rect2) in
  let y1 := Z.max (r1 rect1) (r1 rect2) in
  let x2 := Z.min (r2 rect1) (r2 rect2) in
  let y2 := Z.min (r3 rect1) (r3 rect2) in
  if (x2 <? x1) || (y2 <? y1) then 0
  else (x2 - x1) * (y2 - y1).

Definition calc_union (rect1 rect2 : rect) : Z :=
  calc_rect_size rect1 + calc_rect_size rect2 - calc_intersection rect1 rect2.

(** [a / b] on Python integers: the quotient, or [ZeroDivisionError].  The
    quotient is kept exact here; Python rounds it to a float. *)
Definition true_div (a b : Z) : result Q :=
  if b =? 0 then Raise ZeroDivisionError
  else Ok (inject_Z a / inject_Z b)%Q.

Definition calc_IOU (rect1 rect2 : rect) : result Q :=
  true_div (calc_intersection rect1 rect2) (calc_union rect1 rect2).

(** ** The checkpoint saver

    The file system is a map from path to content.  [torch.save] writes the
    serialised parameters of the model, [state_bytes model], to a path. *)

(** [s.startswith("/")] and [s.endswith("/")] *)
Definition startswith_sep (s : string) : bool :=
  match s with
  | String c _ => bool_decide (c = "/"%char)
  | EmptyString => false
  end.

Definition endswith_sep (s : string) : bool := startswith_sep (String.rev s).

(** [os.path.join(a, b)] on a POSIX system *)
Definition path_join (a b : string) : string :=
  if startswith_sep b then b
  else if bool_decide (a = ""%string) || endswith_sep a then (a +:+ b)%string
  else (a +:+ "/" +:+ b)%string.

(** [str(n)] for an integer *)
Definition str_of_int (n : Z) : string := NilZero.string_of_int (Z.to_int n).

Section saver.
Context {Model Contents Instructions : Type} (state_bytes : Model → Contents).

Record Saver : Type := mk_Saver {
  instructions : Instructions;
  folder_path : string
}.

Definition torch_save (model : Model) (file_path : string)
    (fs : gmap string Contents) : gmap string Contents :=
  <[file_path := state_bytes model]> fs.

(** [shutil.copyfile(src, dst)] *)
Definition copyfile (src dst : string) (fs : gmap string Contents)
    : result (gmap string Contents) :=
  match fs !! src with
  | Some c => Ok (<[dst := c]> fs)
  | None => Raise FileNotFoundError
  end.

Definition checkpoint_path (self : Saver) (epoch : Z) : string :=
  path_join (folder_path self) ("checkpoint_epoch_" +:+ str_of_int epoch +:+ ".pt")%string.

Definition best_path (self : Saver) : string :=
  path_join (folder_path self) "model_best.pth"%string.

Definition save_checkpoint (self : Saver) (model : Model) (is_best : bool) (epoch : Z)
    (fs : gmap string Contents) : result (gmap string Contents) :=
  let file_path := checkpoint_path self epoch in
  let fs := torch_save model file_path fs in
  if is_best then copyfile file_path (best_path self) fs
  else Ok fs.
End saver.

(** ** Loading a state dictionary

    A module is read through its state dictionary, from parameter name to
    tensor; of a tensor only its shape is looked at.  The dictionary read by
    [torch.load] is an argument. *)

Section state_dicts.
Context {Tensor Shape : Type} `{EqDecision Shape} (shape : Tensor → Shape).

(** [model.load_state_dict(state_dict)] of [torch.nn.Module], which is
    strict: the keys must be those of the module and every tensor must have
    the shape of the parameter it replaces.  [None] stands for the
    [RuntimeError] raised otherwise, and [Some state_dict] for the dictionary
    the module accepted: torch then copies each of its tensors into the
    parameter of that name, converting it to the dtype and device of the
    parameter, so the parameters hold the accepted tensors up to that
    conversion, not the tensor objects themselves. *)
Definition module_load_state_dict (params state_dict : gmap string Tensor)
    : option (gmap string Tensor) :=
  if decide (dom state_dict = dom params ∧
             map_Forall (λ k t, shape <$> params !! k = Some (shape t)) state_dict)
  then Some state_dict
  else None.

Definition load_state_dict (params pretrained_dict : gmap string Tensor)
    : option (gmap string Tensor) :=
  let model_dict := params in
  let pretrained_dict :=
    filter (λ kv, shape <$> model_dict !! kv.1 = Some (shape kv.2)) pretrained_dict in
  let model_dict := pretrained_dict ∪ model_dict in
  module_load_state_dict params model_dict.

(** [model_dict] as lines 87 to 94 leave it: the dictionary that
    [load_state_dict] hands to the module on line 96. *)
Definition updated_model_dict (params pretrained_dict : gmap string Tensor)
    : gmap string Tensor :=
  let model_dict := params in
  let pretrained_dict :=
    filter (λ kv, shape <$> model_dict !! kv.1 = Some (shape kv.2)) pretrained_dict in
  pretrained_dict ∪ model_dict.
End state_dicts.

(** ** Saving the instructions *)

Section saver_instructions.
Context {Contents Instructions : Type} (json_dump : Instructions → Contents).

Definition instructions_path (self : @Saver Instructions) : string :=
  path_join (folder_path self) "instructions.json"%string.

Definition save_instructions (self : @Saver Instructions)
    (fs : gmap string Contents) : gmap string Contents :=
  <[instructions_path self := json_dump (instructions self)]> fs.
End saver_instructions.

(** ** Predicates and readings used by the properties *)

(** The corners of a rectangle in order: [x1 <= x2] and [y1 <= y2]. *)
Definition rect_ordered (r : rect) : Prop := r0 r ≤ r2 r ∧ r1 r ≤ r3 r.

(** The order in which [cut_windows] visits start points: by column, then
    by row. *)
Definition point_lt (p q : Z * Z) : Prop :=
  p.1 < q.1 ∨ (p.1 = q.1 ∧ p.2 < q.2).

(** The loop of [mask_to_one_hot] run on one pixel. *)
Definition one_hot_cell (colour_mapping : gmap string Z) (p : Z) : list Z :=
  fold_left (λ cell '(i, k), if p =? colour_mapping !!! k then <[i := 1]> cell else cell)
    (enumerate (sorted_keys colour_mapping))
    (replicate (length (elements (dom colour_mapping))) 0).

Definition pointwise3 {B C} (n : nat) (f : B → list C) (a : ndarray B) : ndarray3 C :=
  mk_ndarray3 (shape0 a) (shape1 a) n (map2d f (rows a)).

(** The share recorded for a class, if any: [stats[c]["share"]]. *)
Definition share_of {F} (stats : gmap string (gmap string F)) (c : string) : option F :=
  stats !! c ≫= λ entry, entry !! "share"%string.

(** A module with two parameters, and a pretrained dictionary whose head has
    another shape and which has a tensor the module lacks; a tensor is the
    list of its numbers and its shape their count. *)
Definition body_head_params : gmap string (list nat) :=
  {[ "body.weight"%string := [1; 2]%nat; "head.weight"%string := [3]%nat ]}.

Definition body_head_pretrained : gmap string (list nat) :=
  {[ "body.weight"%string := [7; 8]%nat; "head.weight"%string := [4; 5]%nat;
     "aux.weight"%string := [9]%nat ]}.

(** * Properties *)

(** ** Results *)

Lemma raises_Ok {A} (a : A) : ¬ raises (Ok a).
Proof. by intros [e He]. Qed.

Lemma raises_Raise {A} (e : exn) : raises (@Raise A e).
Proof. by exists e. Qed.

(** ** [range] *)

Lemma py_range_ok start stop step :
  step ≠ 0 →
  py_range start stop step = Ok (range_elems start step (range_len start stop step)).
Proof. intros Hs. unfold py_range. by destruct (Z.eqb_spec step 0). Qed.

Lemma py_range_zero_step start stop : py_range start stop 0 = Raise ValueError.
Proof. done. Qed.

Lemma range_elems_nonneg step n x : 0 ≤ step → x ∈ range_elems 0 step n → 0 ≤ x.
Proof.
  unfold range_elems. intros Hs (i & -> & _)%list_elem_of_fmap. nia.
Qed.

Lemma range_len_nonpos_stop stop step :
  0 < step → stop ≤ 0 → range_len 0 stop step = 0%nat.
Proof.
  intros Hs Hstop. unfold range_len.
  destruct (Z.ltb_spec 0 step); [|lia].
  by destruct (Z.ltb_spec 0 stop); [lia|].
Qed.

(** ** Slices and crops *)

Lemma slice_bound_range n i : 0 ≤ slice_bound n i ≤ Z.of_nat n.
Proof. unfold slice_bound. destruct (Z.ltb_spec i 0); lia. Qed.

Lemma slice_len_le n a b : (slice_len n a b ≤ n)%nat.
Proof.
  unfold slice_len.
  pose proof (slice_bound_range n a). pose proof (slice_bound_range n b). lia.
Qed.

Lemma slice_len_inside n a b :
  0 ≤ a → a ≤ b → b ≤ Z.of_nat n → slice_len n a b = Z.to_nat (b - a).
Proof.
  intros Ha Hb Hn. unfold slice_len, slice_bound.
  destruct (Z.ltb_spec a 0), (Z.ltb_spec b 0); lia.
Qed.

Lemma length_py_slice {A} a b (l : list A) :
  length (py_slice a b l) = slice_len (length l) a b.
Proof.
  unfold py_slice. rewrite length_take, length_drop. unfold slice_len, slice_lo.
  pose proof (slice_bound_range (length l) a).
  pose proof (slice_bound_range (length l) b). lia.
Qed.

Lemma Forall_py_slice {A} (P : A → Prop) a b (l : list A) :
  Forall P l → Forall P (py_slice a b l).
Proof. intros Hl. unfold py_slice. by apply Forall_take, Forall_drop. Qed.

Lemma crop_wf {A} (image : ndarray A) y0 y1 x0 x1 :
  wf_ndarray image → wf_ndarray (crop image y0 y1 x0 x1).
Proof.
  intros [Hlen Hrows]. split; simpl.
  - by rewrite length_fmap, length_py_slice, Hlen.
  - apply Forall_fmap, Forall_py_slice.
    eapply Forall_impl; [exact Hrows|]. intros r Hr. simpl.
    by rewrite length_py_slice, Hr.
Qed.

Lemma crop_shape_le {A} (image : ndarray A) y0 y1 x0 x1 :
  (shape0 (crop image y0 y1 x0 x1) ≤ shape0 image)%nat ∧
  (shape1 (crop image y0 y1 x0 x1) ≤ shape1 image)%nat.
Proof. split; apply slice_len_le. Qed.

(** ** The tiler: what every emitted pair satisfies *)

Section tiler_facts.
Context {A : Type} (image : ndarray A) (window_size : Z).
Context (P : ndarray A → Z * Z → Prop).

Lemma cut_rows_Forall2 h start_x end_x ys (st : @tiles A) :
  Forall2 P st.1 st.2 →
  (∀ y, y ∈ ys →
     let end_y := Z.min (y + window_size) h in
     P (crop image (end_y - window_size) end_y start_x end_x)
       (start_x, end_y - window_size)) →
  let st' := cut_rows image window_size h start_x end_x ys st in
  Forall2 P st'.1 st'.2.
Proof.
  revert st. induction ys as [|y ys IH]; intros st Hst Hys; simpl; [done|].
  destruct (done_before _ _ _); [done|].
  apply IH.
  - simpl. apply Forall2_app; [done|].
    constructor; [|constructor]. apply Hys. by left.
  - intros y' Hy'. apply Hys. by right.
Qed.

Lemma cut_columns_Forall2 step_size h w xs (st : @tiles A) :
  step_size ≠ 0 →
  Forall2 P st.1 st.2 →
  (∀ x y, x ∈ xs →
     y ∈ range_elems 0 step_size (range_len 0 (h - step_size) step_size) →
     let end_x := Z.min (x + window_size) w in
     let end_y := Z.min (y + window_size) h in
     P (crop image (end_y - window_size) end_y (end_x - window_size) end_x)
       (end_x - window_size, end_y - window_size)) →
  ∃ st', cut_columns image window_size step_size h w xs st = Ok st' ∧
         Forall2 P st'.1 st'.2.
Proof.
  intros Hstep. revert st.
  induction xs as [|x xs IH]; intros st Hst Hxs; simpl; [by exists st|].
  destruct (done_before _ _ _); [by exists st|].
  rewrite py_range_ok by done. simpl.
  apply IH.
  - apply cut_rows_Forall2; [done|]. intros y Hy. apply Hxs; [by left|done].
  - intros x' y Hx' Hy. apply Hxs; [by right|done].
Qed.

Lemma cut_windows_Forall2 (step_size : option Z) :
  let s := effective_step window_size step_size in
  let h := Z.of_nat (shape0 image) in
  let w := Z.of_nat (shape1 image) in
  s ≠ 0 →
  (∀ x y, x ∈ range_elems 0 s (range_len 0 (w - s) s) →
     y ∈ range_elems 0 s (range_len 0 (h - s) s) →
     let end_x := Z.min (x + window_size) w in
     let end_y := Z.min (y + window_size) h in
     P (crop image (end_y - window_size) end_y (end_x - window_size) end_x)
       (end_x - window_size, end_y - window_size)) →
  ∃ cuts start_points,
    cut_windows image window_size step_size = Ok (cuts, start_points) ∧
    Forall2 P cuts start_points.
Proof.
  intros s h w Hs HP. unfold cut_windows. fold s h w.
  rewrite py_range_ok by done. simpl.
  destruct (cut_columns_Forall2 s h w
              (range_elems 0 s (range_len 0 (w - s) s)) ([], []))
    as ([cuts pts] & Hrun & Hall); [done|by constructor|done|].
  by exists cuts, pts.
Qed.
End tiler_facts.

Lemma full_wf {A} h w (v : A) : wf_ndarray (full h w v).
Proof.
  split; simpl; [apply length_replicate|].
  apply Forall_replicate, length_replicate.
Qed.

Lemma cut_columns_no_rows {A} (image : ndarray A) window_size step_size h w xs :
  0 < step_size → h ≤ step_size →
  cut_columns image window_size step_size h w xs ([], []) = Ok ([], []).
Proof.
  intros Hs Hh. induction xs as [|x xs IH]; simpl; [done|].
  rewrite py_range_ok by lia.
  rewrite range_len_nonpos_stop by lia. simpl. exact IH.
Qed.

(** ** The tiler: when the windows cover the image *)

Lemma range_elems_StronglySorted step n :
  0 < step → StronglySorted Z.lt (range_elems 0 step n).
Proof.
  intros Hs. unfold range_elems. generalize 0%nat as k.
  induction n as [|n IH]; intros k; simpl; constructor; [apply IH|].
  apply Forall_fmap, Forall_forall. intros i Hi%elem_of_seq. simpl. nia.
Qed.

Lemma range_elems_last step n :
  last (range_elems 0 step (S n)) = Some (Z.of_nat n * step).
Proof.
  unfold range_elems. rewrite seq_S, fmap_app. simpl. by rewrite last_snoc.
Qed.

Lemma range_len_pos stop step :
  0 < step → 0 < stop →
  ∃ n, range_len 0 stop step = S n ∧
       Z.of_nat n * step < stop ≤ Z.of_nat n * step + step.
Proof.
  intros Hs Hstop. unfold range_len.
  destruct (Z.ltb_spec 0 step); [|lia]. destruct (Z.ltb_spec 0 stop); [|lia].
  rewrite Z.sub_0_r.
  pose proof (Z.div_pos (stop - 1) step ltac:(lia) ltac:(lia)) as Hq.
  exists (Z.to_nat ((stop - 1) / step)). split; [lia|].
  rewrite Z2Nat.id by done.
  pose proof (Z.mul_div_le (stop - 1) step ltac:(lia)).
  pose proof (Z.mul_succ_div_gt (stop - 1) step ltac:(lia)). lia.
Qed.

(** Along one axis of length [len], the windows placed by the loop counter
    reach every coordinate when two steps fit in a window. *)
Lemma range_covers_axis window_size step len p :
  0 < step → 2 * step ≤ window_size → window_size ≤ len → 0 ≤ p < len →
  ∃ v, v ∈ range_elems 0 step (range_len 0 (len - step) step) ∧
       Z.min (v + window_size) len - window_size ≤ p < Z.min (v + window_size) len.
Proof.
  intros Hs Hws Hlen Hp.
  destruct (range_len_pos (len - step) step) as (n & -> & Hlo & Hhi); [lia..|].
  pose proof (Z.div_pos p step ltac:(lia) ltac:(lia)) as Hq0.
  pose proof (Z.mul_div_le p step ltac:(lia)) as Hq1.
  pose proof (Z.mul_succ_div_gt p step ltac:(lia)) as Hq2.
  destruct (Z.le_gt_cases (p / step) (Z.of_nat n)) as [Hin|Hout].
  - exists (p / step * step). split; [|lia].
    apply list_elem_of_fmap. exists (Z.to_nat (p / step)).
    split; [lia|]. apply elem_of_seq. lia.
  - exists (Z.of_nat n * step). split; [|nia].
    apply list_elem_of_fmap. exists n. split; [lia|]. apply elem_of_seq. lia.
Qed.

Lemma range_last_reaches_end window_size step len :
  0 < step → 2 * step ≤ window_size → window_size ≤ len →
  ∃ v, last (range_elems 0 step (range_len 0 (len - step) step)) = Some v ∧
       Z.min (v + window_size) len = len.
Proof.
  intros Hs Hws Hlen.
  destruct (range_len_pos (len - step) step) as (n & -> & Hlo & Hhi); [lia..|].
  exists (Z.of_nat n * step). split; [apply range_elems_last|lia].
Qed.

Section tiler_coverage.
Context {A : Type} (image : ndarray A) (window_size h : Z).

Lemma done_before_snoc (start_points : list (Z * Z)) p axis v :
  done_before (start_points ++ [p]) axis v = (v =? axis p).
Proof. unfold done_before. by rewrite last_snoc. Qed.

Lemma cut_rows_extends start_x end_x ys (st : @tiles A) :
  ∃ l, (cut_rows image window_size h start_x end_x ys st).2 = st.2 ++ l.
Proof.
  revert st. induction ys as [|y ys IH]; intros st; simpl.
  { exists []. by rewrite app_nil_r. }
  destruct (done_before _ _ _).
  { exists []. by rewrite app_nil_r. }
  edestruct IH as [l ->]. simpl. rewrite <-app_assoc. by eexists.
Qed.

(** One column.  Unless the loop is entered with its first window already
    the last start point, every window of the column is cut, and the last
    start point afterwards is that of the last loop counter. *)
Lemma cut_rows_column start_x end_x ys (st : @tiles A) :
  StronglySorted Z.lt ys →
  (∀ y, head ys = Some y →
     done_before st.2 snd (Z.min (y + window_size) h - window_size) = true →
     last st.2 = Some (start_x, Z.min (y + window_size) h - window_size) ∧
     ∀ y', y' ∈ ys →
       Z.min (y' + window_size) h - window_size = Z.min (y + window_size) h - window_size) →
  let st' := cut_rows image window_size h start_x end_x ys st in
  (∀ y, y ∈ ys → (start_x, Z.min (y + window_size) h - window_size) ∈ st'.2) ∧
  (∀ y, last ys = Some y →
     last st'.2 = Some (start_x, Z.min (y + window_size) h - window_size)).
Proof.
  revert st. induction ys as [|y ys IH]; intros st Hsorted Hentry; simpl.
  { split; [by intros y ?%elem_of_nil|done]. }
  destruct (done_before _ _ _) eqn:Hstale.
  - destruct (Hentry y eq_refl Hstale) as [Hlast Hsame]. split.
    + intros y' Hy'. rewrite (Hsame y' Hy'). by apply last_Some_elem_of.
    + intros yl Hyl%last_Some_elem_of. by rewrite (Hsame yl Hyl).
  - apply StronglySorted_inv in Hsorted as [Hsorted Hlt].
    set (p := (start_x, Z.min (y + window_size) h - window_size)).
    set (st1 := (st.1 ++ [crop image (Z.min (y + window_size) h - window_size)
                            (Z.min (y + window_size) h) start_x end_x],
                 st.2 ++ [p])).
    destruct (IH st1 Hsorted) as [Hcol Hlast].
    { intros y1 Hhead Hstale1. simpl in Hstale1.
      rewrite done_before_snoc in Hstale1. simpl in Hstale1.
      apply Z.eqb_eq in Hstale1. split.
      - simpl. rewrite last_snoc. unfold p. by rewrite Hstale1.
      - destruct ys as [|y1' ys']; simplify_eq/=.
        apply StronglySorted_inv in Hsorted as [_ Hlt1].
        apply Forall_cons in Hlt as [Hy1 _].
        intros y' [->|Hy']%elem_of_cons; [done|].
        rewrite Forall_forall in Hlt1. specialize (Hlt1 y' Hy'). lia. }
    split.
    + intros y' [->|Hy']%elem_of_cons; [|by apply Hcol].
      destruct (cut_rows_extends start_x end_x ys st1) as [l ->].
      simpl. apply elem_of_app. left. apply elem_of_app. right. by left.
    + intros yl Hyl. destruct ys as [|y1 ys'].
      * simplify_eq/=. by rewrite last_snoc.
      * apply Hlast. by rewrite last_cons_cons in Hyl.
Qed.
End tiler_coverage.

Section tiler_coverage_columns.
Context {A : Type} (image : ndarray A) (window_size step_size h w : Z).
Context (ys : list Z) (y_last : Z).
Hypothesis Hrange : py_range 0 (h - step_size) step_size = Ok ys.
Hypothesis Hys : StronglySorted Z.lt ys.
Hypothesis Hlast : last ys = Some y_last.
Hypothesis Hfresh : ∀ y, head ys = Some y →
  Z.min (y + window_size) h - window_size ≠ Z.min (y_last + window_size) h - window_size.

Lemma cut_columns_extends xs (st st' : @tiles A) :
  cut_columns image window_size step_size h w xs st = Ok st' →
  ∃ l, st'.2 = st.2 ++ l.
Proof.
  revert st. induction xs as [|x xs IH]; intros st; simpl.
  { intros [= <-]. exists []. by rewrite app_nil_r. }
  destruct (done_before _ _ _).
  { intros [= <-]. exists []. by rewrite app_nil_r. }
  rewrite Hrange. simpl. intros (l & ->)%IH.
  edestruct (cut_rows_extends image window_size h) as [l' ->].
  rewrite <-app_assoc. by eexists.
Qed.

(** All columns.  The state on entry has no start point yet, or its last
    start point closes a column; and if the loop is entered with its first
    column already the last one cut, that column is complete. *)
Lemma cut_columns_grid xs (st : @tiles A) :
  StronglySorted Z.lt xs →
  (last st.2 = None ∨
   ∃ a, last st.2 = Some (a, Z.min (y_last + window_size) h - window_size)) →
  (∀ x, head xs = Some x →
     done_before st.2 fst (Z.min (x + window_size) w - window_size) = true →
     (∀ x', x' ∈ xs →
        Z.min (x' + window_size) w - window_size = Z.min (x + window_size) w - window_size) ∧
     (∀ y, y ∈ ys →
        (Z.min (x + window_size) w - window_size,
         Z.min (y + window_size) h - window_size) ∈ st.2)) →
  ∃ st', cut_columns image window_size step_size h w xs st = Ok st' ∧
    ∀ x y, x ∈ xs → y ∈ ys →
      (Z.min (x + window_size) w - window_size,
       Z.min (y + window_size) h - window_size) ∈ st'.2.
Proof.
  revert st. induction xs as [|x xs IH]; intros st Hsorted Hclosed Hentry; simpl.
  { exists st. split; [done|]. by intros x y ?%elem_of_nil. }
  destruct (done_before _ _ _) eqn:Hstale.
  - destruct (Hentry x eq_refl Hstale) as [Hsame Hcol].
    exists st. split; [done|]. intros x' y Hx' Hy.
    rewrite (Hsame x' Hx'). by apply Hcol.
  - rewrite Hrange. simpl.
    apply StronglySorted_inv in Hsorted as [Hsorted Hlt].
    set (start_x := Z.min (x + window_size) w - window_size).
    destruct (cut_rows_column image window_size h start_x
                (Z.min (x + window_size) w) ys st Hys) as [Hcol Hend].
    { intros y Hhead Hstale_y. exfalso. unfold done_before in Hstale_y.
      destruct Hclosed as [Hnone|[a Hsome]].
      - by rewrite Hnone in Hstale_y.
      - rewrite Hsome in Hstale_y. simpl in Hstale_y.
        apply Z.eqb_eq in Hstale_y. by apply (Hfresh y). }
    specialize (Hend y_last Hlast).
    destruct (IH (cut_rows image window_size h start_x
                    (Z.min (x + window_size) w) ys st) Hsorted)
      as (st' & Hrun & Hgrid).
    { right. by exists start_x. }
    { intros x1 Hhead Hstale1. unfold done_before in Hstale1.
      rewrite Hend in Hstale1. simpl in Hstale1. apply Z.eqb_eq in Hstale1.
      split.
      - destruct xs as [|x1' xs']; simplify_eq/=.
        apply StronglySorted_inv in Hsorted as [_ Hlt1].
        apply Forall_cons in Hlt as [Hx1 _].
        intros x' [->|Hx']%elem_of_cons; [done|].
        rewrite Forall_forall in Hlt1. specialize (Hlt1 x' Hx'). lia.
      - intros y Hy. rewrite Hstale1. by apply Hcol. }
    exists st'. split; [done|].
    intros x' y [->|Hx']%elem_of_cons Hy; [|by apply Hgrid].
    destruct (cut_columns_extends _ _ _ Hrun) as [l ->].
    apply elem_of_app. left. by apply Hcol.
Qed.
End tiler_coverage_columns.

(** X27.  Coverage, where it holds: a positive step that fits twice in the window,
    a window no wider than the image and strictly lower than it.  Every pixel
    of the image lies in a returned window. *)
Lemma cut_windows_covers_taller_image {A} (image : ndarray A) (window_size : Z)
    (step_size : option Z) :
  let s := effective_step window_size step_size in
  let h := Z.of_nat (shape0 image) in
  let w := Z.of_nat (shape1 image) in
  0 < s → 2 * s ≤ window_size → window_size ≤ w → window_size < h →
  ∃ cuts start_points,
    cut_windows image window_size step_size = Ok (cuts, start_points) ∧
    ∀ x y, 0 ≤ x < w → 0 ≤ y < h → covered window_size start_points x y = true.
Proof.
  intros s h w Hs Hfit Hw Hh. unfold cut_windows. fold s h w.
  assert (s ≠ 0) as Hs0 by lia.
  rewrite py_range_ok by done. simpl.
  destruct (range_last_reaches_end window_size s h) as (y_last & Hlast & Hend); [lia..|].
  destruct (cut_columns_grid image window_size s h w
              (range_elems 0 s (range_len 0 (h - s) s)) y_last
              (py_range_ok 0 (h - s) s Hs0)
              (range_elems_StronglySorted _ _ Hs) Hlast)
    with (xs := range_elems 0 s (range_len 0 (w - s) s)) (st := ([], []) : @tiles A)
    as ([cuts pts] & Hrun & Hgrid).
  - intros y Hhead. rewrite Hend.
    destruct (range_len_pos (h - s) s) as (n & Hn & _); [lia..|].
    rewrite Hn in Hhead. simpl in Hhead. simplify_eq/=. lia.
  - by apply range_elems_StronglySorted.
  - by left.
  - intros x _ Hstale. done.
  - exists cuts, pts. split; [done|]. intros px py Hpx Hpy.
    destruct (range_covers_axis window_size s w px) as (x & Hx & Hcx); [lia..|].
    destruct (range_covers_axis window_size s h py) as (y & Hy & Hcy); [lia..|].
    apply existsb_exists. eexists. split.
    + apply list_elem_of_In. exact (Hgrid x y Hx Hy).
    + unfold in_window. simpl.
      repeat (apply andb_true_intro; split); lia.
Qed.

(** ** The claims about the tiler *)

(** C2.  For a window size (a natural number) with
    [window_size <= min(H, W)] and a positive step, [cut_windows] returns,
    and every cut is paired with its start point [(start_x, start_y)]: the
    cut is the crop of the image at that point, it has exactly [window_size]
    rows of [window_size] pixels, [0 <= start_x <= W - window_size] and
    [0 <= start_y <= H - window_size]. *)
Theorem cut_windows_full_tiles {A} (image : ndarray A) (window_size : nat)
    (step_size : option Z) :
  let h := Z.of_nat (shape0 image) in
  let w := Z.of_nat (shape1 image) in
  let ws := Z.of_nat window_size in
  wf_ndarray image →
  ws ≤ Z.min h w →
  0 < effective_step ws step_size →
  ∃ cuts start_points,
    cut_windows image ws step_size = Ok (cuts, start_points) ∧
    Forall2 (λ cut p,
      cut = crop image p.2 (p.2 + ws) p.1 (p.1 + ws) ∧
      wf_ndarray cut ∧
      shape0 cut = window_size ∧ shape1 cut = window_size ∧
      0 ≤ p.1 ≤ w - ws ∧ 0 ≤ p.2 ≤ h - ws) cuts start_points.
Proof.
  intros h w ws Hwf Hfit Hstep.
  apply cut_windows_Forall2; [lia|].
  fold h w. intros x y Hx%range_elems_nonneg Hy%range_elems_nonneg; [|lia..].
  intros end_x end_y. simpl.
  replace (end_y - ws + ws) with end_y by lia.
  replace (end_x - ws + ws) with end_x by lia.
  assert (0 ≤ end_x - ws ∧ end_x ≤ w) as [Hx0 Hx1] by (unfold end_x; lia).
  assert (0 ≤ end_y - ws ∧ end_y ≤ h) as [Hy0 Hy1] by (unfold end_y; lia).
  split; [done|]. split; [by apply crop_wf|].
  simpl. rewrite !slice_len_inside by (fold h w; lia).
  repeat split; lia.
Qed.

Lemma cut_windows_full_tiles_witness :
  ∃ cuts start_points,
    cut_windows (full 10 10 0) 4 None = Ok (cuts, start_points) ∧
    Forall2 (λ cut p,
      cut = crop (full 10 10 0) p.2 (p.2 + 4) p.1 (p.1 + 4) ∧
      wf_ndarray cut ∧
      shape0 cut = 4%nat ∧ shape1 cut = 4%nat ∧
      0 ≤ p.1 ≤ 10 - 4 ∧ 0 ≤ p.2 ≤ 10 - 4) cuts start_points.
Proof.
  apply (cut_windows_full_tiles (full 10 10 0) 4 None).
  - apply full_wf.
  - vm_compute. discriminate.
  - vm_compute. reflexivity.
Defined.

(** C6, as the code has it.  A window larger than the image is not rejected:
    for an image and a window size within the exact range (at most [2 ^ 53]),
    whenever the step in effect is not zero, [cut_windows] returns without
    raising, and no cut it returns is [window_size] by [window_size] (the
    lists may be empty). *)
Theorem cut_windows_oversized_window {A} (image : ndarray A) (window_size : Z)
    (step_size : option Z) :
  within_exact_range image window_size →
  Z.of_nat (shape0 image) < window_size ∨ Z.of_nat (shape1 image) < window_size →
  effective_step window_size step_size ≠ 0 →
  ∃ cuts start_points,
    cut_windows image window_size step_size = Ok (cuts, start_points) ∧
    ¬ raises (cut_windows image window_size step_size) ∧
    Forall (λ cut, ¬ (Z.of_nat (shape0 cut) = window_size ∧
                      Z.of_nat (shape1 cut) = window_size)) cuts.
Proof.
  intros _ Hbig Hstep.
  destruct (cut_windows_Forall2 image window_size
              (λ cut _, (shape0 cut ≤ shape0 image)%nat ∧
                        (shape1 cut ≤ shape1 image)%nat) step_size)
    as (cuts & pts & Hrun & Hall); [done| |].
  { intros x y _ _ end_x end_y. apply crop_shape_le. }
  exists cuts, pts. split; [done|]. split; [rewrite Hrun; apply raises_Ok|].
  apply Forall2_Forall_l with (Q := λ cut, (shape0 cut ≤ shape0 image)%nat ∧
                                           (shape1 cut ≤ shape1 image)%nat) in Hall.
  - eapply Forall_impl; [exact Hall|]. simpl. lia.
  - apply Forall_true. tauto.
Qed.

Lemma cut_windows_oversized_window_witness :
  ∃ cuts start_points,
    cut_windows (full 2 2 0) 3 (Some 1) = Ok (cuts, start_points) ∧
    ¬ raises (cut_windows (full 2 2 0) 3 (Some 1)) ∧
    Forall (λ cut, ¬ (Z.of_nat (shape0 cut) = 3 ∧ Z.of_nat (shape1 cut) = 3)) cuts.
Proof.
  apply (cut_windows_oversized_window (full 2 2 0) 3 (Some 1)).
  - unfold within_exact_range. simpl. lia.
  - left. vm_compute. reflexivity.
  - vm_compute. discriminate.
Defined.

(** C6 fails as stated: on a 2 by 2 image and a window of side 3 the call
    returns one cut of a single pixel, and raises nothing. *)
Lemma cut_windows_oversized_window_returns :
  Z.of_nat (shape0 (full 2 2 0)) < 3 ∧
  cut_windows (full 2 2 0) 3 (Some 1) = Ok ([mk_ndarray 1 1 [[0]]], [(-1, -1)]) ∧
  ¬ raises (cut_windows (full 2 2 0) 3 (Some 1)).
Proof.
  split; [by vm_compute|]. split; [by vm_compute|].
  apply raises_Ok.
Qed.

(** C10, as the code has it.  For an image and a window size within the
    exact range (at most [2 ^ 53] in absolute value), when the step in effect
    is not zero and it reaches the width or the height of the image,
    [cut_windows] returns two empty lists and raises nothing. *)
Theorem cut_windows_large_step {A} (image : ndarray A) (window_size : Z)
    (step_size : option Z) :
  let s := effective_step window_size step_size in
  within_exact_range image window_size →
  s ≠ 0 →
  Z.of_nat (shape1 image) ≤ s ∨ Z.of_nat (shape0 image) ≤ s →
  cut_windows image window_size step_size = Ok ([], []).
Proof.
  intros s _ Hs Hlarge. unfold cut_windows. fold s.
  assert (0 < s) by lia.
  rewrite py_range_ok by done. simpl.
  destruct (Z.le_gt_cases (Z.of_nat (shape1 image)) s) as [Hw|Hw].
  - by rewrite range_len_nonpos_stop by lia.
  - apply cut_columns_no_rows; lia.
Qed.

Lemma cut_windows_large_step_witness :
  cut_windows (full 6 4 0) 4 (Some 4) = Ok ([], []).
Proof.
  apply (cut_windows_large_step (full 6 4 0) 4 (Some 4)).
  - unfold within_exact_range. simpl. lia.
  - vm_compute. discriminate.
  - left. vm_compute. discriminate.
Defined.

(** C10 fails as stated when the step is zero: on an empty image the default
    step of a window of side 1 is [int(1 / 2) = 0], which is at least the
    width, and [range] raises [ValueError]. *)
Lemma cut_windows_zero_step_raises :
  Z.of_nat (shape1 (full 0 0 0)) ≤ effective_step 1 None ∧
  cut_windows (full 0 0 0) 1 None = Raise ValueError.
Proof. split; [by vm_compute|reflexivity]. Qed.

(** C1 at a failing input.  A 4 by 10 image cut with windows of side 4 and
    the default step 2: only the window at [(0, 0)] is returned, since in
    every later column the first [start_y] equals the [start_y] of the last
    start point, which belongs to the column before.  The pixel at [x = 9],
    [y = 0] lies in no returned window. *)
Theorem cut_windows_single_row_not_covered :
  4 ≤ Z.min (Z.of_nat (shape0 (full 4 10 0))) (Z.of_nat (shape1 (full 4 10 0))) ∧
  default_step 4 = 2 ∧
  cut_windows (full 4 10 0) 4 None = Ok ([full 4 4 0], [(0, 0)]) ∧
  covered 4 [(0, 0)] 9 0 = false.
Proof. split; [by vm_compute|]. repeat split; reflexivity. Qed.

(** The example of the specification, a 10 by 10 image cut with windows of
    side 4 and step 2, is higher than the window, and is covered. *)
Lemma cut_windows_covers_10_by_10 :
  ∃ cuts start_points,
    cut_windows (full 10 10 0) 4 (Some 2) = Ok (cuts, start_points) ∧
    ∀ x y, 0 ≤ x < 10 → 0 ≤ y < 10 → covered 4 start_points x y = true.
Proof.
  apply (cut_windows_covers_taller_image (full 10 10 0) 4 (Some 2)); vm_compute; done.
Defined.

(** ** Rectangle geometry *)

Lemma calc_intersection_degenerate_l rect1 rect2 :
  calc_rect_size rect1 = 0 → calc_intersection rect1 rect2 = 0.
Proof.
  unfold calc_rect_size, calc_intersection. intros Hsize.
  destruct (_ || _) eqn:Hinv; [done|].
  apply orb_false_elim in Hinv as [Hx%Z.ltb_ge Hy%Z.ltb_ge].
  apply Z.mul_eq_0 in Hsize. nia.
Qed.

(** C7. For any two rectangles of area zero, [calc_union] is 0 and the
    division in [calc_IOU] is a division by zero: the call raises
    [ZeroDivisionError] and returns no value, in particular not 0. *)
Theorem calc_IOU_degenerate_raises (rect1 rect2 : rect) :
  calc_rect_size rect1 = 0 → calc_rect_size rect2 = 0 →
  calc_union rect1 rect2 = 0 ∧
  calc_IOU rect1 rect2 = Raise ZeroDivisionError ∧
  ∀ q, calc_IOU rect1 rect2 ≠ Ok q.
Proof.
  intros Hs1 Hs2.
  assert (calc_union rect1 rect2 = 0) as Hunion.
  { unfold calc_union.
    rewrite Hs1, Hs2, (calc_intersection_degenerate_l rect1 rect2 Hs1). done. }
  assert (calc_IOU rect1 rect2 = Raise ZeroDivisionError) as Hiou.
  { unfold calc_IOU. by rewrite Hunion. }
  split; [done|]. split; [done|]. intros q. by rewrite Hiou.
Qed.

Lemma calc_IOU_degenerate_raises_witness :
  calc_union (Rect 0 0 0 5) (Rect 1 1 4 1) = 0 ∧
  calc_IOU (Rect 0 0 0 5) (Rect 1 1 4 1) = Raise ZeroDivisionError ∧
  ∀ q, calc_IOU (Rect 0 0 0 5) (Rect 1 1 4 1) ≠ Ok q.
Proof.
  apply (calc_IOU_degenerate_raises (Rect 0 0 0 5) (Rect 1 1 4 1)); reflexivity.
Defined.

(** ** The checkpoint saver *)

Lemma path_join_inj a b1 b2 :
  startswith_sep b1 = false → startswith_sep b2 = false →
  path_join a b1 = path_join a b2 → b1 = b2.
Proof.
  unfold path_join. intros -> ->.
  destruct (_ || _); intros Heq%(inj _); [done|].
  by simplify_eq/=.
Qed.

Section saver_facts.
Context {Model Contents Instructions : Type} (state_bytes : Model → Contents).
Implicit Types (self : @Saver Instructions) (fs : gmap string Contents).

Lemma checkpoint_path_not_best self epoch :
  checkpoint_path self epoch ≠ best_path self.
Proof.
  unfold checkpoint_path, best_path. intros Heq%path_join_inj; done.
Qed.

Lemma save_checkpoint_not_best self model epoch fs :
  save_checkpoint state_bytes self model false epoch fs
  = Ok (<[checkpoint_path self epoch := state_bytes model]> fs).
Proof. done. Qed.

(** C8. [save_checkpoint] with [is_best = True] returns, and afterwards the
    best-model file holds exactly the content of that epoch's checkpoint
    file, the serialised model.  A call with [is_best = False], in any
    file system (so also any later one), returns, writes that epoch's
    checkpoint file and changes no other file; the best-model file is as it
    was. *)
Theorem save_checkpoint_best_file self model epoch fs :
  (∃ fs1, save_checkpoint state_bytes self model true epoch fs = Ok fs1 ∧
          fs1 !! checkpoint_path self epoch = Some (state_bytes model) ∧
          fs1 !! best_path self = fs1 !! checkpoint_path self epoch) ∧
  (∀ model' epoch' fs',
     ∃ fs2, save_checkpoint state_bytes self model' false epoch' fs' = Ok fs2 ∧
            fs2 !! checkpoint_path self epoch' = Some (state_bytes model') ∧
            (∀ path, path ≠ checkpoint_path self epoch' → fs2 !! path = fs' !! path) ∧
            fs2 !! best_path self = fs' !! best_path self).
Proof.
  pose proof (checkpoint_path_not_best self) as Hne.
  split.
  - unfold save_checkpoint, copyfile, torch_save.
    rewrite lookup_insert_eq. eexists. split; [done|].
    rewrite lookup_insert_eq, lookup_insert_ne by (by apply not_eq_sym).
    by rewrite lookup_insert_eq.
  - intros model' epoch' fs'. rewrite save_checkpoint_not_best.
    eexists. split; [done|]. rewrite lookup_insert_eq. split; [done|].
    split.
    + intros path Hpath. by rewrite lookup_insert_ne.
    + by rewrite lookup_insert_ne.
Qed.
End saver_facts.

(** ** Sorted keys and loops that may raise *)

Lemma sorted_keys_Permutation {V} (d : gmap string V) :
  sorted_keys d ≡ₚ elements (dom d).
Proof. apply merge_sort_Permutation. Qed.

Lemma sorted_keys_Sorted {V} (d : gmap string V) :
  Sorted String.le (sorted_keys d).
Proof. apply (Sorted_merge_sort String.le). Qed.

Lemma elem_of_sorted_keys {V} (d : gmap string V) k :
  k ∈ sorted_keys d ↔ is_Some (d !! k).
Proof. by rewrite sorted_keys_Permutation, elem_of_elements, elem_of_dom. Qed.

Lemma sorted_keys_NoDup {V} (d : gmap string V) : NoDup (sorted_keys d).
Proof. rewrite sorted_keys_Permutation. apply NoDup_elements. Qed.

Lemma getitem_Ok {V} (d : gmap string V) k v : d !! k = Some v → getitem d k = Ok v.
Proof. unfold getitem. by intros ->. Qed.

Lemma getitem_Raise {V} (d : gmap string V) k : d !! k = None → getitem d k = Raise (KeyError k).
Proof. unfold getitem. by intros ->. Qed.

Lemma mapM_result_Ok {B C} (f : B → result C) (g : B → C) l :
  (∀ x, x ∈ l → f x = Ok (g x)) → mapM f l = Ok (g <$> l).
Proof.
  induction l as [|x l IH]; intros Hf; simpl; [done|].
  rewrite (Hf x) by left. simpl.
  rewrite IH; [done|]. intros y Hy. apply Hf. by right.
Qed.

(** A list comprehension raises what its first failing item raises. *)
Lemma mapM_result_Raise {B C} (f : B → result C) l :
  Exists (λ x, raises (f x)) l →
  ∃ x e, x ∈ l ∧ f x = Raise e ∧ mapM f l = Raise e.
Proof.
  induction l as [|x l IH]; intros Hex; [by apply Exists_nil in Hex|].
  simpl. destruct (f x) as [v|e] eqn:Hfx.
  - apply Exists_cons in Hex as [[e He]|Hex]; [congruence|].
    destruct (IH Hex) as (y & e & Hy & Hfy & Hrun).
    exists y, e. split; [by right|]. split; [done|]. simpl. by rewrite Hrun.
  - exists x, e. split; [by left|]. done.
Qed.

(** ** Class weights *)

Section weights_facts.
Context {F : Type} (f_one : F) (f_add f_div : F → F → F) (f_log : F → F).
Implicit Types (stats : gmap string (gmap string F)) (colour_mapping : gmap string Z).

(** C5, as the code has it.  If a class of the mapping has no entry in the
    statistics, the call raises Python's [KeyError], the error of a failed
    dictionary lookup: its key is a class of the mapping without an entry,
    or ["share"] when the entry of some class lacks that field.  If every
    class has an entry with a share, the call returns one weight per class,
    in the order of the sorted class names, each
    [1 / log(modifier + share)]. *)
Theorem calculate_class_weights_spec stats colour_mapping (modifier : F) :
  let run := calculate_class_weights f_one f_add f_div f_log stats colour_mapping modifier in
  ((∃ c, c ∈ dom colour_mapping ∧ stats !! c = None) →
     ∃ k, run = Raise (KeyError k) ∧
          (k = "share"%string ∨ (k ∈ dom colour_mapping ∧ stats !! k = None))) ∧
  (∀ share : string → F,
     (∀ c, c ∈ dom colour_mapping →
        ∃ entry, stats !! c = Some entry ∧ entry !! "share"%string = Some (share c)) →
     run = Ok ((λ c, f_div f_one (f_log (f_add modifier (share c))))
                 <$> sorted_keys colour_mapping)) ∧
  Sorted String.le (sorted_keys colour_mapping) ∧
  sorted_keys colour_mapping ≡ₚ elements (dom colour_mapping).
Proof.
  intros run. split; [|split; [|split]].
  - intros (c & Hc & Hmiss). unfold run, calculate_class_weights.
    destruct (mapM_result_Raise
                (λ c, entry ← getitem stats c; getitem entry "share"%string)
                (sorted_keys colour_mapping)) as (k & e & Hk & Hfk & ->).
    { apply Exists_exists. exists c. split.
      - by apply elem_of_sorted_keys, elem_of_dom.
      - rewrite getitem_Raise by done. apply raises_Raise. }
    simpl. unfold getitem in Hfk.
    destruct (stats !! k) as [entry|] eqn:Hentry; simpl in Hfk.
    + destruct (entry !! "share"%string); simplify_eq. exists "share"%string. auto.
    + simplify_eq. exists k. split; [done|]. right. split; [|done].
      by apply elem_of_dom, elem_of_sorted_keys.
  - intros share Hall. unfold run, calculate_class_weights.
    rewrite (mapM_result_Ok _ share).
    + simpl. by rewrite <-list_fmap_compose.
    + intros c Hc%elem_of_sorted_keys%elem_of_dom.
      destruct (Hall c Hc) as (entry & Hentry & Hshare).
      rewrite (getitem_Ok _ _ _ Hentry). simpl. by apply getitem_Ok.
  - apply sorted_keys_Sorted.
  - apply sorted_keys_Permutation.
Qed.
End weights_facts.

Lemma calculate_class_weights_spec_witness :
  calculate_class_weights "1"%string sym_add sym_div sym_log
    half_stats coral_mapping "1.01"%string
  = Ok ["1 / log(1.01 + 0.5)"%string].
Proof.
  apply (proj1 (proj2 (calculate_class_weights_spec "1"%string sym_add sym_div sym_log
                         half_stats coral_mapping "1.01"%string))
           (λ _, "0.5"%string)).
  intros c Hc. exists {[ "share"%string := "0.5"%string ]}.
  unfold coral_mapping in Hc. rewrite dom_singleton_L, elem_of_singleton in Hc.
  subst c. split; reflexivity.
Defined.

(** C5 fails as stated: with class ["coral"] in the mapping and empty
    statistics, what is raised is the plain [KeyError] of the lookup
    [stats["coral"]]; the function has no error of its own.  And an entry
    without a share raises the [KeyError] of the lookup [["share"]]. *)
Lemma calculate_class_weights_plain_KeyError :
  "coral"%string ∈ dom coral_mapping ∧
  (∅ : gmap string (gmap string string)) !! "coral"%string = None ∧
  calculate_class_weights "1"%string sym_add sym_div sym_log ∅ coral_mapping "1.01"%string
  = Raise (KeyError "coral") ∧
  calculate_class_weights "1"%string sym_add sym_div sym_log
    {[ "coral"%string := ∅ ]} coral_mapping "1.01"%string
  = Raise (KeyError "share").
Proof. split; [by vm_compute|]. split; [done|]. split; by vm_compute. Qed.

(** ** Loops in which the last write wins *)

Section last_write_facts.
Context {B : Type} (test : B → bool) (val : B → Z).

Lemma last_write_snoc items b init :
  last_write test val (items ++ [b]) init
  = if test b then val b else last_write test val items init.
Proof. unfold last_write. by rewrite fold_left_app. Qed.

(** Either no item passes the test and the initial value stays, or the
    value is that of the last item passing it. *)
Lemma last_write_cases items init :
  (Forall (λ b, test b = false) items ∧ last_write test val items init = init) ∨
  (∃ j b, items !! j = Some b ∧ test b = true ∧
          (∀ j' b', (j < j')%nat → items !! j' = Some b' → test b' = false) ∧
          last_write test val items init = val b).
Proof.
  induction items as [|b items IH] using rev_ind; [by left|].
  rewrite last_write_snoc. destruct (test b) eqn:Hb.
  - right. exists (length items), b. split; [by apply list_lookup_middle|].
    split; [done|]. split; [|done].
    intros j' b' Hj' Hlook. apply lookup_lt_Some in Hlook.
    rewrite length_app in Hlook. simpl in Hlook. lia.
  - destruct IH as [[Hall Hinit]|(j & b0 & Hj & Hb0 & Hlater & Hval)].
    + left. split; [|done]. apply Forall_app. split; [done|]. by constructor.
    + right. exists j, b0. split; [by apply lookup_app_l_Some|].
      split; [done|]. split; [|done].
      intros j' b' Hj' Hlook.
      destruct (decide (j' < length items)%nat) as [Hlt|Hge].
      * rewrite lookup_app_l in Hlook by done. by eapply Hlater.
      * rewrite lookup_app_r in Hlook by lia.
        destruct (j' - length items)%nat; simplify_eq/=. done.
Qed.

Lemma last_write_lookup items init j b :
  items !! j = Some b → test b = true →
  (∀ j' b', (j < j')%nat → items !! j' = Some b' → test b' = false) →
  last_write test val items init = val b.
Proof.
  intros Hj Hb Hlater.
  destruct (last_write_cases items init)
    as [[Hall _]|(j2 & b2 & Hj2 & Hb2 & Hlater2 & ->)].
  - rewrite Forall_lookup in Hall. specialize (Hall j b Hj). congruence.
  - destruct (Nat.lt_trichotomy j j2) as [Hlt|[->|Hgt]].
    + specialize (Hlater j2 b2 Hlt Hj2). congruence.
    + congruence.
    + specialize (Hlater2 j b Hgt Hj). congruence.
Qed.

Lemma last_write_range items init (lo hi : Z) :
  lo ≤ init < hi → (∀ b, lo ≤ val b < hi) →
  lo ≤ last_write test val items init < hi.
Proof.
  intros Hinit Hval.
  destruct (last_write_cases items init) as [[_ ->]|(j & b & _ & _ & _ & ->)]; auto.
Qed.
End last_write_facts.

Lemma lookup_enumerate {B} (l : list B) j i k :
  enumerate l !! j = Some (i, k) ↔ i = j ∧ l !! j = Some k.
Proof.
  unfold enumerate. rewrite lookup_zip_with_Some. split.
  - intros (i' & k' & ? & Hseq & Hl); simplify_eq.
    apply lookup_seq in Hseq as [-> _]. done.
  - intros [-> Hl]. exists j, k. split; [done|]. split; [|done].
    apply lookup_seq. split; [done|]. by eapply lookup_lt_Some.
Qed.

Lemma elem_of_enumerate {B} (l : list B) i k :
  (i, k) ∈ enumerate l → k ∈ l ∧ (i < length l)%nat.
Proof.
  intros (j & [-> Hl]%lookup_enumerate)%list_elem_of_lookup.
  split; [by eapply list_elem_of_lookup_2|by eapply lookup_lt_Some].
Qed.

Lemma length_sorted_keys {V} (d : gmap string V) : length (sorted_keys d) = size d.
Proof. by rewrite sorted_keys_Permutation, <-size_dom. Qed.

Lemma uint8_range z : 0 ≤ uint8 z < 256.
Proof. unfold uint8. apply Z.mod_pos_bound. lia. Qed.

Lemma uint8_small z : 0 ≤ z < 256 → uint8 z = z.
Proof. unfold uint8. intros. by apply Z.mod_small. Qed.

Lemma uint8_fixed z : uint8 z = z ↔ 0 ≤ z < 256.
Proof.
  split; [|apply uint8_small]. intros <-. apply uint8_range.
Qed.

(** ** Arrays read pixel by pixel *)

Lemma zip2d_map2d {B C D E} (h : C → D → E) (f : B → C) (g : B → D) l :
  zip2d h (map2d f l) (map2d g l) = map2d (λ p, h (f p) (g p)) l.
Proof.
  unfold zip2d, map2d. induction l as [|r l IH]; simpl; [done|].
  f_equal; [|done]. induction r as [|p r IHr]; simpl; [done|]. by f_equal.
Qed.

Lemma map2d_map2d {B C D} (f : B → C) (g : C → D) l :
  map2d g (map2d f l) = map2d (g ∘ f) l.
Proof.
  unfold map2d. rewrite <-list_fmap_compose. apply list_fmap_ext.
  intros _ r _. simpl. by rewrite <-list_fmap_compose.
Qed.

Lemma full_pointwise {B C} (a : ndarray B) (v : C) :
  wf_ndarray a → full (shape0 a) (shape1 a) v = pointwise (λ _, v) a.
Proof.
  intros [Hlen Hrows]. unfold full, pointwise. f_equal.
  rewrite <-Hlen. clear Hlen. unfold map2d.
  induction Hrows as [|r l Hr _ IH]; simpl; [done|].
  f_equal; [|done]. rewrite <-Hr. symmetry. by apply const_fmap.
Qed.

Lemma pointwise_wf {B C} (f : B → C) (a : ndarray B) :
  wf_ndarray a → wf_ndarray (pointwise f a).
Proof.
  intros [Hlen Hrows]. split; simpl; unfold map2d.
  - by rewrite length_fmap.
  - apply Forall_fmap. eapply Forall_impl; [exact Hrows|].
    intros r Hr. simpl. by rewrite length_fmap.
Qed.

Lemma get2_pointwise {B C} (f : B → C) (a : ndarray B) y x :
  get2 (pointwise f a) y x = f <$> get2 a y x.
Proof.
  unfold get2, pointwise, map2d. simpl. rewrite list_lookup_fmap.
  destruct (rows a !! y) as [r|]; simpl; [|done]. by rewrite list_lookup_fmap.
Qed.

Lemma eq_scalar_pointwise {B} (f : B → Z) (a : ndarray B) c :
  eq_scalar (pointwise f a) c = pointwise (λ p, f p =? c) a.
Proof. unfold eq_scalar, pointwise. simpl. by rewrite map2d_map2d. Qed.

Lemma assign_where_pointwise {B} (f : B → Z) (g : B → bool) (a : ndarray B) v :
  assign_where (pointwise f a) (pointwise g a) v
  = pointwise (λ p, if g p then uint8 v else f p) a.
Proof. unfold assign_where, pointwise. simpl. by rewrite zip2d_map2d. Qed.

Lemma as_cells_wf {B} (a : ndarray3 B) : wf_ndarray3 a → wf_ndarray (as_cells a).
Proof.
  intros [Hlen Hrows]. split; [done|]. simpl.
  eapply Forall_impl; [exact Hrows|]. by intros r [Hr _].
Qed.

Lemma get3_length {B} (a : ndarray3 B) y x cell :
  wf_ndarray3 a → get3 a y x = Some cell → length cell = dim2 a.
Proof.
  intros [_ Hrows] Hget. unfold get3 in Hget.
  destruct (cells a !! y) as [r|] eqn:Hr; simplify_eq/=.
  rewrite Forall_lookup in Hrows. destruct (Hrows _ _ Hr) as [_ Hcells].
  rewrite Forall_lookup in Hcells. by eapply Hcells.
Qed.

(** A loop whose body assigns, through a mask computed pixel by pixel, a
    value that depends on the item alone. *)
Lemma for_each_pointwise {B I} (a : ndarray B) (items : list I)
    (body : ndarray Z → I → result (ndarray Z)) (test : B → I → bool) (val : I → Z) :
  (∀ f it, it ∈ items →
     body (pointwise f a) it = Ok (pointwise (λ p, if test p it then val it else f p) a)) →
  ∀ f, for_each items body (pointwise f a)
       = Ok (pointwise (λ p, last_write (test p) val items (f p)) a).
Proof.
  induction items as [|it items IH]; intros Hbody f; simpl; [done|].
  rewrite Hbody by left. simpl.
  rewrite IH; [done|]. intros g it' Hit'. apply Hbody. by right.
Qed.

Lemma getitem_sorted_keys (d : gmap string Z) k :
  k ∈ sorted_keys d → getitem d k = Ok (d !!! k).
Proof.
  intros [c Hc]%elem_of_sorted_keys.
  by rewrite (getitem_Ok _ _ _ Hc), (lookup_total_correct _ _ _ Hc).
Qed.

Lemma colour_mask_to_class_id_mask_pointwise colour_mask colour_mapping :
  wf_ndarray colour_mask →
  colour_mask_to_class_id_mask colour_mask colour_mapping
  = Ok (pointwise (class_id_of_colour colour_mapping) colour_mask).
Proof.
  intros Hwf. unfold colour_mask_to_class_id_mask, zeros_like.
  rewrite full_pointwise by done.
  apply (for_each_pointwise colour_mask _ _
           (λ p '(i, k), p =? colour_mapping !!! k) (λ '(i, k), uint8 (Z.of_nat i))).
  intros f [i k] [Hk _]%elem_of_enumerate.
  rewrite getitem_sorted_keys by done. simpl.
  by rewrite <-assign_where_pointwise.
Qed.

Lemma fits_c_long_spec z : fits_c_long z = true ↔ - 2 ^ 63 ≤ z < 2 ^ 63.
Proof. unfold fits_c_long. rewrite andb_true_iff, Z.leb_le, Z.ltb_lt. done. Qed.

Lemma assign_where_int_Ok a cond v :
  - 2 ^ 63 ≤ v < 2 ^ 63 → assign_where_int a cond v = Ok (assign_where a cond v).
Proof. intros Hv%fits_c_long_spec. unfold assign_where_int. by rewrite Hv. Qed.

Lemma assign_where_int_Raise a cond v :
  ¬ (- 2 ^ 63 ≤ v < 2 ^ 63) → assign_where_int a cond v = Raise OverflowError.
Proof.
  intros Hv. unfold assign_where_int.
  destruct (fits_c_long v) eqn:Hfits; [|done]. by apply fits_c_long_spec in Hfits.
Qed.

Lemma colours_fit_sorted_keys colour_mapping k :
  colours_fit_c_long colour_mapping → k ∈ sorted_keys colour_mapping →
  - 2 ^ 63 ≤ colour_mapping !!! k < 2 ^ 63.
Proof.
  intros Hfit [c Hc]%elem_of_sorted_keys.
  rewrite (lookup_total_correct _ _ _ Hc). exact (Hfit k c Hc).
Qed.

Lemma class_id_mask_to_colour_mask_pointwise class_id_mask colour_mapping :
  wf_ndarray class_id_mask →
  colours_fit_c_long colour_mapping →
  class_id_mask_to_colour_mask class_id_mask colour_mapping
  = Ok (pointwise (colour_of_class_id colour_mapping) class_id_mask).
Proof.
  intros Hwf Hfit. unfold class_id_mask_to_colour_mask, zeros_like.
  rewrite full_pointwise by done.
  apply (for_each_pointwise class_id_mask _ _
           (λ v '(i, k), v =? Z.of_nat i) (λ '(i, k), uint8 (colour_mapping !!! k))).
  intros f [i k] [Hk _]%elem_of_enumerate.
  rewrite getitem_sorted_keys by done. simpl.
  rewrite assign_where_int_Ok by (by apply colours_fit_sorted_keys).
  by rewrite <-assign_where_pointwise.
Qed.

Lemma channel_Ok (one_hot : ndarray3 Z) i :
  (i < dim2 one_hot)%nat →
  channel one_hot i = Ok (pointwise (λ cell : list Z, cell !!! i) (as_cells one_hot)).
Proof. intros Hi. unfold channel. by rewrite decide_True. Qed.

Lemma channel_Raise (one_hot : ndarray3 Z) i :
  (dim2 one_hot ≤ i)%nat → channel one_hot i = Raise IndexError.
Proof. intros Hi. unfold channel. rewrite decide_False; [done|lia]. Qed.

Lemma one_hot_to_mask_pointwise one_hot colour_mapping :
  wf_ndarray3 one_hot →
  (size colour_mapping ≤ dim2 one_hot)%nat →
  colours_fit_c_long colour_mapping →
  one_hot_to_mask one_hot colour_mapping
  = Ok (pointwise (colour_of_cell colour_mapping) (as_cells one_hot)).
Proof.
  intros Hwf Hsize Hfit. unfold one_hot_to_mask.
  change (full (dim0 one_hot) (dim1 one_hot) 0)
    with (full (shape0 (as_cells one_hot)) (shape1 (as_cells one_hot)) 0).
  rewrite full_pointwise by by apply as_cells_wf.
  apply (for_each_pointwise (as_cells one_hot) _ _
           (λ cell '(i, k), cell !!! i =? 1) (λ '(i, k), uint8 (colour_mapping !!! k))).
  intros f [i k] [Hk Hi]%elem_of_enumerate.
  rewrite length_sorted_keys in Hi.
  rewrite getitem_sorted_keys by done. simpl.
  rewrite channel_Ok by lia. simpl.
  rewrite assign_where_int_Ok by (by apply colours_fit_sorted_keys).
  by rewrite eq_scalar_pointwise, assign_where_pointwise.
Qed.

(** ** The codec, pixel by pixel *)

Lemma colour_of_class_id_index colour_mapping i k c :
  sorted_keys colour_mapping !! i = Some k → colour_mapping !! k = Some c →
  colour_of_class_id colour_mapping (Z.of_nat i) = uint8 c.
Proof.
  intros Hk Hc. unfold colour_of_class_id.
  rewrite (last_write_lookup _ _ _ _ i (i, k)).
  - by rewrite (lookup_total_correct _ _ _ Hc).
  - by apply lookup_enumerate.
  - apply Z.eqb_refl.
  - intros j' [i' k'] Hlt [-> _]%lookup_enumerate. apply Z.eqb_neq. lia.
Qed.

Lemma class_id_of_colour_found colour_mapping p k :
  colour_mapping !! k = Some p →
  ∃ j kj, sorted_keys colour_mapping !! j = Some kj ∧
          colour_mapping !! kj = Some p ∧
          class_id_of_colour colour_mapping p = uint8 (Z.of_nat j).
Proof.
  intros Hk. unfold class_id_of_colour.
  destruct (last_write_cases (λ '(i, k), p =? colour_mapping !!! k)
              (λ '(i, k), uint8 (Z.of_nat i))
              (enumerate (sorted_keys colour_mapping)) 0)
    as [[Hall _]|(j & [i kj] & Hj & Htest & _ & ->)].
  - assert (k ∈ sorted_keys colour_mapping) as (j & Hj)%list_elem_of_lookup
      by (by apply elem_of_sorted_keys).
    rewrite Forall_lookup in Hall.
    specialize (Hall j (j, k) (proj2 (lookup_enumerate _ j j k) (conj eq_refl Hj))).
    simpl in Hall. rewrite (lookup_total_correct _ _ _ Hk), Z.eqb_refl in Hall. done.
  - apply lookup_enumerate in Hj as [-> Hkj]. exists j, kj.
    split; [done|]. split; [|done].
    apply Z.eqb_eq in Htest. subst p. apply lookup_lookup_total.
    by apply elem_of_sorted_keys, list_elem_of_lookup_2 with j.
Qed.

Lemma colour_round_trip_pixel colour_mapping p k :
  colour_mapping !! k = Some p →
  (∀ j k', sorted_keys colour_mapping !! j = Some k' →
           colour_mapping !! k' = Some p → (j < 256)%nat) →
  colour_of_class_id colour_mapping (class_id_of_colour colour_mapping p) = uint8 p.
Proof.
  intros Hk Hindex.
  destruct (class_id_of_colour_found colour_mapping p k Hk) as (j & kj & Hj & Hkj & ->).
  pose proof (Hindex j kj Hj Hkj).
  rewrite uint8_small by lia.
  by apply colour_of_class_id_index with kj.
Qed.

Lemma colour_of_cell_highest colour_mapping (cell : list Z) j k c :
  (size colour_mapping ≤ length cell)%nat →
  sorted_keys colour_mapping !! j = Some k → colour_mapping !! k = Some c →
  cell !! j = Some 1 →
  (∀ j', (j < j' < size colour_mapping)%nat → cell !! j' ≠ Some 1) →
  colour_of_cell colour_mapping cell = uint8 c.
Proof.
  intros Hsize Hk Hc Hon Hoff. unfold colour_of_cell.
  rewrite (last_write_lookup _ _ _ _ j (j, k)).
  - by rewrite (lookup_total_correct _ _ _ Hc).
  - by apply lookup_enumerate.
  - rewrite (list_lookup_total_correct _ _ _ Hon). done.
  - intros j' [i' k'] Hlt [-> Hk']%lookup_enumerate.
    apply lookup_lt_Some in Hk'. rewrite length_sorted_keys in Hk'.
    apply Z.eqb_neq. intros Hone. apply (Hoff j'); [lia|].
    rewrite <-Hone. apply list_lookup_lookup_total_lt. lia.
Qed.

(** ** What an array of [np.uint8] can hold *)

Lemma full_zero_uint8 h w : all_uint8 (full h w 0).
Proof. unfold all_uint8. simpl. apply Forall_replicate, Forall_replicate. lia. Qed.

Lemma assign_where_uint8 a cond v : all_uint8 a → all_uint8 (assign_where a cond v).
Proof.
  unfold all_uint8, assign_where, zip2d. simpl.
  generalize (rows cond) as bss. intros bss Hall. revert bss.
  induction Hall as [|r rs Hr _ IH]; intros [|bs bss]; simpl; try by constructor.
  constructor; [|apply IH]. clear IH. revert bs.
  induction Hr as [|p r Hp _ IHr]; intros [|b bs]; simpl; try by constructor.
  constructor; [|apply IHr]. destruct b; [apply uint8_range|done].
Qed.

Lemma for_each_invariant {S I} (Inv : S → Prop) (items : list I)
    (body : S → I → result S) s s' :
  (∀ s it s', Inv s → body s it = Ok s' → Inv s') →
  Inv s → for_each items body s = Ok s' → Inv s'.
Proof.
  intros Hbody. revert s.
  induction items as [|it items IH]; intros s Hs Hrun; simpl in Hrun; [congruence|].
  destruct (body s it) as [s1|e] eqn:Hstep; [|done].
  simpl in Hrun. eapply IH; [|exact Hrun]. by eapply Hbody.
Qed.

Lemma all_uint8_get2 a y x v : all_uint8 a → get2 a y x = Some v → 0 ≤ v < 256.
Proof.
  unfold all_uint8, get2. intros Hall Hget.
  destruct (rows a !! y) as [r|] eqn:Hr; simplify_eq/=.
  rewrite Forall_lookup in Hall. specialize (Hall _ _ Hr).
  rewrite Forall_lookup in Hall. by eapply Hall.
Qed.

Lemma class_id_mask_to_colour_mask_uint8 class_id_mask colour_mapping colour_mask :
  class_id_mask_to_colour_mask class_id_mask colour_mapping = Ok colour_mask →
  all_uint8 colour_mask.
Proof.
  apply for_each_invariant; [|apply full_zero_uint8].
  intros s [i k] s' Hs Hbody.
  destruct (getitem colour_mapping k) as [c|]; simplify_eq/=.
  unfold assign_where_int in Hbody.
  destruct (fits_c_long c); simplify_eq. by apply assign_where_uint8.
Qed.

Lemma one_hot_to_mask_uint8 one_hot colour_mapping mask :
  one_hot_to_mask one_hot colour_mapping = Ok mask → all_uint8 mask.
Proof.
  apply for_each_invariant; [|apply full_zero_uint8].
  intros s [i k] s' Hs Hbody.
  destruct (getitem colour_mapping k) as [c|]; simplify_eq/=.
  destruct (channel one_hot i); simplify_eq/=.
  unfold assign_where_int in Hbody.
  destruct (fits_c_long c); simplify_eq. by apply assign_where_uint8.
Qed.

(** ** The claims about the codec *)

(** C3, as the code has it.  When every colour of the mapping fits a C long,
    [colour_mask_to_class_id_mask] followed by [class_id_mask_to_colour_mask]
    returns, and gives back the colour of every pixel whose colour lies in
    [0, 255] and is the colour of some class, provided every class of that
    colour has a sorted index below 256. *)
Theorem colour_class_id_round_trip (colour_mask : ndarray Z)
    (colour_mapping : gmap string Z) :
  wf_ndarray colour_mask →
  colours_fit_c_long colour_mapping →
  ∃ class_id_mask colour_mask',
    colour_mask_to_class_id_mask colour_mask colour_mapping = Ok class_id_mask ∧
    class_id_mask_to_colour_mask class_id_mask colour_mapping = Ok colour_mask' ∧
    ∀ y x p k,
      get2 colour_mask y x = Some p → colour_mapping !! k = Some p →
      0 ≤ p ≤ 255 →
      (∀ j k', sorted_keys colour_mapping !! j = Some k' →
               colour_mapping !! k' = Some p → (j < 256)%nat) →
      get2 colour_mask' y x = Some p.
Proof.
  intros Hwf Hfit.
  eexists _, _.
  split; [by apply colour_mask_to_class_id_mask_pointwise|].
  split; [by apply class_id_mask_to_colour_mask_pointwise; [apply pointwise_wf|]|].
  intros y x p k Hp Hk Hrange Hindex.
  rewrite !get2_pointwise, Hp. simpl.
  rewrite (colour_round_trip_pixel colour_mapping p k) by done.
  rewrite uint8_small by lia. done.
Qed.

Lemma colour_class_id_round_trip_witness :
  ∃ class_id_mask colour_mask',
    colour_mask_to_class_id_mask (mk_ndarray 1 2 [[7; 5]])
      reef_mapping = Ok class_id_mask ∧
    class_id_mask_to_colour_mask class_id_mask reef_mapping = Ok colour_mask' ∧
    ∀ y x p k,
      get2 (mk_ndarray 1 2 [[7; 5]]) y x = Some p →
      reef_mapping !! k = Some p →
      0 ≤ p ≤ 255 →
      (∀ j k', sorted_keys reef_mapping !! j = Some k' →
               reef_mapping !! k' = Some p → (j < 256)%nat) →
      get2 colour_mask' y x = Some p.
Proof.
  apply (colour_class_id_round_trip (mk_ndarray 1 2 [[7; 5]]) reef_mapping).
  - split; [reflexivity|]. repeat constructor.
  - unfold colours_fit_c_long. apply (bool_decide_unpack _). vm_compute. exact I.
Defined.

(** C3 fails as stated, in three ways.  A class of colour 300 and a pixel of
    colour 300: the pixel gets class id 1, and the way back stores 300 in an
    array of [np.uint8], which holds 44.  With 257 classes, a pixel of
    colour 5, the colour of the last class: its class id 256 is stored as 0,
    and the way back gives the colour of class 0, which is 0.  And with
    another class whose colour does not fit a C long, the way back raises
    [OverflowError] for a pixel of colour 7 and class id 0. *)
Lemma colour_class_id_round_trip_wraps :
  (wide_mapping !! "sand"%string = Some 300 ∧
   get2 (mk_ndarray 1 1 [[300]]) 0 0 = Some 300 ∧
   colour_mask_to_class_id_mask (mk_ndarray 1 1 [[300]]) wide_mapping
   = Ok (mk_ndarray 1 1 [[1]]) ∧
   class_id_mask_to_colour_mask (mk_ndarray 1 1 [[1]]) wide_mapping
   = Ok (mk_ndarray 1 1 [[44]])) ∧
  (size many_mapping = 257%nat ∧
   sorted_keys many_mapping !! 256%nat = Some "QA"%string ∧
   many_mapping !! "QA"%string = Some 5 ∧
   get2 (mk_ndarray 1 1 [[5]]) 0 0 = Some 5 ∧
   colour_mask_to_class_id_mask (mk_ndarray 1 1 [[5]]) many_mapping
   = Ok (mk_ndarray 1 1 [[0]]) ∧
   class_id_mask_to_colour_mask (mk_ndarray 1 1 [[0]]) many_mapping
   = Ok (mk_ndarray 1 1 [[0]])) ∧
  (huge_mapping !! "coral"%string = Some 7 ∧
   get2 (mk_ndarray 1 1 [[7]]) 0 0 = Some 7 ∧
   colour_mask_to_class_id_mask (mk_ndarray 1 1 [[7]]) huge_mapping
   = Ok (mk_ndarray 1 1 [[0]]) ∧
   class_id_mask_to_colour_mask (mk_ndarray 1 1 [[0]]) huge_mapping
   = Raise OverflowError).
Proof. repeat split; by vm_compute. Qed.

(** C4, as the code has it.  When the one-hot array has at least as many
    channels as the mapping has classes and every colour of the mapping fits
    a C long, [one_hot_to_mask] returns, and a pixel whose channel [j] is 1
    while no channel of a later class is 1 gets the colour of class [j] as an
    array of [np.uint8] stores it, that is modulo 256; channels of earlier
    classes that are also 1 change nothing. *)
Theorem one_hot_to_mask_last_write_wins (one_hot : ndarray3 Z)
    (colour_mapping : gmap string Z) :
  wf_ndarray3 one_hot →
  (size colour_mapping ≤ dim2 one_hot)%nat →
  colours_fit_c_long colour_mapping →
  ∃ mask,
    one_hot_to_mask one_hot colour_mapping = Ok mask ∧
    ∀ y x cell j k c,
      get3 one_hot y x = Some cell →
      sorted_keys colour_mapping !! j = Some k → colour_mapping !! k = Some c →
      cell !! j = Some 1 →
      (∀ j', (j < j' < size colour_mapping)%nat → cell !! j' ≠ Some 1) →
      get2 mask y x = Some (c mod 256).
Proof.
  intros Hwf Hsize Hfit. eexists.
  split; [by apply one_hot_to_mask_pointwise|].
  intros y x cell j k c Hcell Hk Hc Hon Hoff.
  rewrite get2_pointwise.
  change (get2 (as_cells one_hot) y x) with (get3 one_hot y x).
  rewrite Hcell. simpl. f_equal.
  apply colour_of_cell_highest with j k; try done.
  by rewrite (get3_length one_hot y x cell).
Qed.

Lemma one_hot_to_mask_last_write_wins_witness :
  ∃ mask,
    one_hot_to_mask (mk_ndarray3 1 1 2 [[[1; 1]]]) wide_mapping = Ok mask ∧
    ∀ y x cell j k c,
      get3 (mk_ndarray3 1 1 2 [[[1; 1]]]) y x = Some cell →
      sorted_keys wide_mapping !! j = Some k → wide_mapping !! k = Some c →
      cell !! j = Some 1 →
      (∀ j', (j < j' < size wide_mapping)%nat → cell !! j' ≠ Some 1) →
      get2 mask y x = Some (c mod 256).
Proof.
  apply (one_hot_to_mask_last_write_wins (mk_ndarray3 1 1 2 [[[1; 1]]]) wide_mapping).
  - split; [reflexivity|]. repeat constructor.
  - vm_compute. lia.
  - unfold colours_fit_c_long. apply (bool_decide_unpack _). vm_compute. exact I.
Defined.

(** C4 fails as stated on three counts.  With both channels of a pixel on
    and the later class of colour 300, the pixel holds 44, not the colour of
    the class.  With three classes and a one-hot array of two channels, both
    on, the read of channel 2 raises [IndexError].  With a class whose colour
    does not fit a C long, the store raises [OverflowError]. *)
Lemma one_hot_to_mask_wraps_or_raises :
  sorted_keys wide_mapping = ["coral"%string; "sand"%string] ∧
  wide_mapping !! "sand"%string = Some 300 ∧
  one_hot_to_mask (mk_ndarray3 1 1 2 [[[1; 1]]]) wide_mapping
  = Ok (mk_ndarray 1 1 [[44]]) ∧
  one_hot_to_mask (mk_ndarray3 1 1 2 [[[1; 1]]]) three_mapping = Raise IndexError ∧
  one_hot_to_mask (mk_ndarray3 1 1 2 [[[1; 1]]]) huge_mapping = Raise OverflowError.
Proof. repeat split; by vm_compute. Qed.

(** C9, as the code has it.  Let every colour of the mapping fit a C long,
    and let class [i] have a colour [c >= 256].  Then [c mod 256] differs
    from [c]; [class_id_mask_to_colour_mask] returns and stores [c mod 256]
    at every pixel of class id [i]; [one_hot_to_mask] returns and stores
    [c mod 256] at every pixel whose last channel on is [i]; and whenever a
    round trip through the class-id mask, or through the one-hot array, gives
    a pixel its colour back, that colour lies in [0, 255]. *)
Theorem uint8_output_wraps (colour_mapping : gmap string Z) (i : nat) (k : string) (c : Z) :
  colours_fit_c_long colour_mapping →
  sorted_keys colour_mapping !! i = Some k →
  colour_mapping !! k = Some c →
  256 ≤ c →
  c mod 256 ≠ c ∧
  (∀ class_id_mask, wf_ndarray class_id_mask →
     ∃ colour_mask,
       class_id_mask_to_colour_mask class_id_mask colour_mapping = Ok colour_mask ∧
       ∀ y x, get2 class_id_mask y x = Some (Z.of_nat i) →
              get2 colour_mask y x = Some (c mod 256)) ∧
  (∀ one_hot, wf_ndarray3 one_hot → (size colour_mapping ≤ dim2 one_hot)%nat →
     ∃ mask,
       one_hot_to_mask one_hot colour_mapping = Ok mask ∧
       ∀ y x cell, get3 one_hot y x = Some cell → cell !! i = Some 1 →
         (∀ j', (i < j' < size colour_mapping)%nat → cell !! j' ≠ Some 1) →
         get2 mask y x = Some (c mod 256)) ∧
  (∀ colour_mask class_id_mask colour_mask' y x p,
     colour_mask_to_class_id_mask colour_mask colour_mapping = Ok class_id_mask →
     class_id_mask_to_colour_mask class_id_mask colour_mapping = Ok colour_mask' →
     get2 colour_mask y x = Some p → get2 colour_mask' y x = Some p →
     0 ≤ p ≤ 255) ∧
  (∀ mask one_hot mask' y x p,
     mask_to_one_hot mask colour_mapping = Ok one_hot →
     one_hot_to_mask one_hot colour_mapping = Ok mask' →
     get2 mask y x = Some p → get2 mask' y x = Some p →
     0 ≤ p ≤ 255).
Proof.
  intros Hfit Hk Hc Hbig. split; [|split; [|split; [|split]]].
  - pose proof (Z.mod_pos_bound c 256). lia.
  - intros class_id_mask Hwf. eexists.
    split; [by apply class_id_mask_to_colour_mask_pointwise|].
    intros y x Hid. rewrite get2_pointwise, Hid. simpl. f_equal.
    by apply colour_of_class_id_index with k.
  - intros one_hot Hwf Hsize. eexists.
    split; [by apply one_hot_to_mask_pointwise|].
    intros y x cell Hcell Hon Hoff. rewrite get2_pointwise.
    change (get2 (as_cells one_hot) y x) with (get3 one_hot y x).
    rewrite Hcell. simpl. f_equal.
    apply colour_of_cell_highest with i k; try done.
    by rewrite (get3_length one_hot y x cell).
  - intros colour_mask class_id_mask colour_mask' y x p _ Hback _ Hp.
    apply class_id_mask_to_colour_mask_uint8 in Hback.
    pose proof (all_uint8_get2 _ _ _ _ Hback Hp). lia.
  - intros mask one_hot mask' y x p _ Hback _ Hp.
    apply one_hot_to_mask_uint8 in Hback.
    pose proof (all_uint8_get2 _ _ _ _ Hback Hp). lia.
Qed.

Lemma uint8_output_wraps_witness :
  300 mod 256 ≠ 300 ∧
  (∀ class_id_mask, wf_ndarray class_id_mask →
     ∃ colour_mask,
       class_id_mask_to_colour_mask class_id_mask wide_mapping = Ok colour_mask ∧
       ∀ y x, get2 class_id_mask y x = Some (Z.of_nat 1) →
              get2 colour_mask y x = Some (300 mod 256)) ∧
  (∀ one_hot, wf_ndarray3 one_hot → (size wide_mapping ≤ dim2 one_hot)%nat →
     ∃ mask,
       one_hot_to_mask one_hot wide_mapping = Ok mask ∧
       ∀ y x cell, get3 one_hot y x = Some cell → cell !! 1%nat = Some 1 →
         (∀ j', (1 < j' < size wide_mapping)%nat → cell !! j' ≠ Some 1) →
         get2 mask y x = Some (300 mod 256)) ∧
  (∀ colour_mask class_id_mask colour_mask' y x p,
     colour_mask_to_class_id_mask colour_mask wide_mapping = Ok class_id_mask →
     class_id_mask_to_colour_mask class_id_mask wide_mapping = Ok colour_mask' →
     get2 colour_mask y x = Some p → get2 colour_mask' y x = Some p →
     0 ≤ p ≤ 255) ∧
  (∀ mask one_hot mask' y x p,
     mask_to_one_hot mask wide_mapping = Ok one_hot →
     one_hot_to_mask one_hot wide_mapping = Ok mask' →
     get2 mask y x = Some p → get2 mask' y x = Some p →
     0 ≤ p ≤ 255).
Proof.
  apply (uint8_output_wraps wide_mapping 1 "sand"%string 300).
  - unfold colours_fit_c_long. apply (bool_decide_unpack _). vm_compute. exact I.
  - vm_compute. reflexivity.
  - vm_compute. reflexivity.
  - lia.
Defined.

(** C9 fails as stated for a colour that does not fit a C long: with a
    class of colour [2 ^ 64 + 5], which is at least 256, neither function
    stores anything; both raise [OverflowError], also at a pixel of that
    class. *)
Lemma uint8_output_overflows :
  sorted_keys huge_mapping !! 1%nat = Some "sand"%string ∧
  huge_mapping !! "sand"%string = Some (2 ^ 64 + 5) ∧
  256 ≤ 2 ^ 64 + 5 ∧
  class_id_mask_to_colour_mask (mk_ndarray 1 1 [[1]]) huge_mapping
  = Raise OverflowError ∧
  one_hot_to_mask (mk_ndarray3 1 1 2 [[[0; 1]]]) huge_mapping = Raise OverflowError.
Proof. repeat split; by vm_compute. Qed.

(** * Further properties *)

(** ** Rectangle geometry *)

Lemma calc_intersection_comm rect1 rect2 :
  calc_intersection rect1 rect2 = calc_intersection rect2 rect1.
Proof.
  unfold calc_intersection.
  by rewrite (Z.max_comm (r0 rect1)), (Z.max_comm (r1 rect1)),
    (Z.min_comm (r2 rect1)), (Z.min_comm (r3 rect1)).
Qed.

Lemma calc_intersection_nonneg rect1 rect2 : 0 ≤ calc_intersection rect1 rect2.
Proof.
  unfold calc_intersection. destruct (_ || _) eqn:Hinv; [done|].
  apply orb_false_elim in Hinv as [Hx%Z.ltb_ge Hy%Z.ltb_ge]. nia.
Qed.

Lemma calc_intersection_le_l rect1 rect2 :
  rect_ordered rect1 →
  calc_intersection rect1 rect2 ≤ calc_rect_size rect1.
Proof.
  intros [Hx Hy]. unfold calc_intersection, calc_rect_size.
  destruct (_ || _) eqn:Hinv; [nia|].
  apply orb_false_elim in Hinv as [Hx'%Z.ltb_ge Hy'%Z.ltb_ge]. nia.
Qed.

Lemma calc_rect_size_nonneg r : rect_ordered r → 0 ≤ calc_rect_size r.
Proof. intros [Hx Hy]. unfold calc_rect_size. nia. Qed.

Lemma true_div_Ok a b : b ≠ 0 → true_div a b = Ok (inject_Z a / inject_Z b)%Q.
Proof. intros Hb. unfold true_div. by destruct (Z.eqb_spec b 0). Qed.

Lemma inject_Z_div_unit a b :
  0 ≤ a ≤ b → 0 < b → (0 <= inject_Z a / inject_Z b <= 1)%Q.
Proof.
  intros Ha Hb.
  assert (0 < inject_Z b)%Q as Hpos by (unfold Qlt; simpl; lia).
  split.
  - apply Qle_shift_div_l; [done|]. rewrite Qmult_0_l. unfold Qle. simpl. lia.
  - apply Qle_shift_div_r; [done|]. rewrite Qmult_1_l. unfold Qle. simpl. lia.
Qed.

(** With corners in order, the intersection is within both areas, and the
    union is at least each area and at least the intersection. *)
Lemma calc_union_bounds rect1 rect2 :
  rect_ordered rect1 → rect_ordered rect2 →
  0 ≤ calc_intersection rect1 rect2 ≤ Z.min (calc_rect_size rect1) (calc_rect_size rect2) ∧
  Z.max (calc_rect_size rect1) (calc_rect_size rect2) ≤ calc_union rect1 rect2 ∧
  calc_intersection rect1 rect2 ≤ calc_union rect1 rect2.
Proof.
  intros Ho1 Ho2.
  pose proof (calc_intersection_nonneg rect1 rect2) as Hi0.
  pose proof (calc_intersection_le_l rect1 rect2 Ho1) as Hi1.
  pose proof (calc_intersection_le_l rect2 rect1 Ho2) as Hi2.
  rewrite (calc_intersection_comm rect2 rect1) in Hi2.
  pose proof (calc_rect_size_nonneg rect1 Ho1).
  pose proof (calc_rect_size_nonneg rect2 Ho2).
  unfold calc_union. lia.
Qed.

(** X1.  The three measures of a pair of rectangles do not depend on the
    order of the pair. *)
Theorem calc_IOU_comm (rect1 rect2 : rect) :
  calc_intersection rect1 rect2 = calc_intersection rect2 rect1 ∧
  calc_union rect1 rect2 = calc_union rect2 rect1 ∧
  calc_IOU rect1 rect2 = calc_IOU rect2 rect1.
Proof.
  assert (calc_union rect1 rect2 = calc_union rect2 rect1) as Hunion.
  { unfold calc_union. rewrite (calc_intersection_comm rect1 rect2). lia. }
  split; [apply calc_intersection_comm|]. split; [done|].
  unfold calc_IOU. by rewrite Hunion, (calc_intersection_comm rect1 rect2).
Qed.

(** X2.  For two rectangles with their corners in order, not both of area
    zero, [calc_IOU] returns a value between 0 and 1; the intersection is
    never negative and never exceeds either area. *)
Theorem calc_IOU_unit_interval (rect1 rect2 : rect) :
  rect_ordered rect1 → rect_ordered rect2 →
  calc_rect_size rect1 ≠ 0 ∨ calc_rect_size rect2 ≠ 0 →
  0 ≤ calc_intersection rect1 rect2 ≤ Z.min (calc_rect_size rect1) (calc_rect_size rect2) ∧
  ∃ q, calc_IOU rect1 rect2 = Ok q ∧ (0 <= q <= 1)%Q.
Proof.
  intros Ho1 Ho2 Hsize.
  destruct (calc_union_bounds rect1 rect2 Ho1 Ho2) as (Hi & Hu1 & Hu2).
  pose proof (calc_rect_size_nonneg rect1 Ho1).
  pose proof (calc_rect_size_nonneg rect2 Ho2).
  split; [lia|].
  exists (inject_Z (calc_intersection rect1 rect2) / inject_Z (calc_union rect1 rect2))%Q.
  unfold calc_IOU. split.
  - apply true_div_Ok. lia.
  - apply inject_Z_div_unit; lia.
Qed.

Lemma calc_IOU_unit_interval_witness :
  0 ≤ calc_intersection (Rect 0 0 4 4) (Rect 2 2 6 6)
    ≤ Z.min (calc_rect_size (Rect 0 0 4 4)) (calc_rect_size (Rect 2 2 6 6)) ∧
  ∃ q, calc_IOU (Rect 0 0 4 4) (Rect 2 2 6 6) = Ok q ∧ (0 <= q <= 1)%Q.
Proof.
  apply (calc_IOU_unit_interval (Rect 0 0 4 4) (Rect 2 2 6 6)).
  - split; simpl; lia.
  - split; simpl; lia.
  - left. vm_compute. discriminate.
Defined.

(** X3.  For two rectangles with their corners in order, [calc_IOU] raises
    [ZeroDivisionError] exactly when both have area zero. *)
Theorem calc_IOU_raises_iff (rect1 rect2 : rect) :
  rect_ordered rect1 → rect_ordered rect2 →
  calc_IOU rect1 rect2 = Raise ZeroDivisionError ↔
  calc_rect_size rect1 = 0 ∧ calc_rect_size rect2 = 0.
Proof.
  intros Ho1 Ho2. split.
  - intros Hraise.
    destruct (decide (calc_rect_size rect1 = 0 ∧ calc_rect_size rect2 = 0)) as [|Hne];
      [done|].
    destruct (calc_union_bounds rect1 rect2 Ho1 Ho2) as (_ & Hu & _).
    pose proof (calc_rect_size_nonneg rect1 Ho1).
    pose proof (calc_rect_size_nonneg rect2 Ho2).
    unfold calc_IOU in Hraise. rewrite true_div_Ok in Hraise by lia. done.
  - intros [Hs1 Hs2]. unfold calc_IOU, calc_union.
    by rewrite Hs1, Hs2, (calc_intersection_degenerate_l rect1 rect2 Hs1).
Qed.

Lemma calc_IOU_raises_iff_witness :
  calc_IOU (Rect 1 1 1 3) (Rect 0 2 5 2) = Raise ZeroDivisionError ↔
  calc_rect_size (Rect 1 1 1 3) = 0 ∧ calc_rect_size (Rect 0 2 5 2) = 0.
Proof.
  apply (calc_IOU_raises_iff (Rect 1 1 1 3) (Rect 0 2 5 2)); split; simpl; lia.
Defined.

(** X4.  A rectangle with its corners in order and a non-zero area has an
    intersection over union of 1 with itself. *)
Theorem calc_IOU_self (r : rect) :
  rect_ordered r → calc_rect_size r ≠ 0 →
  ∃ q, calc_IOU r r = Ok q ∧ (q == 1)%Q.
Proof.
  intros [Hx Hy] Hsize.
  assert (calc_intersection r r = calc_rect_size r) as Hinter.
  { unfold calc_intersection, calc_rect_size.
    rewrite !Z.max_id, !Z.min_id.
    destruct (Z.ltb_spec (r2 r) (r0 r)); [lia|].
    destruct (Z.ltb_spec (r3 r) (r1 r)); [lia|]. simpl. lia. }
  eexists. unfold calc_IOU, calc_union. rewrite Hinter.
  replace (calc_rect_size r + calc_rect_size r - calc_rect_size r)
    with (calc_rect_size r) by lia.
  split; [by apply true_div_Ok|].
  unfold Qdiv. apply Qmult_inv_r. unfold Qeq. simpl. lia.
Qed.

Lemma calc_IOU_self_witness :
  ∃ q, calc_IOU (Rect 1 2 4 7) (Rect 1 2 4 7) = Ok q ∧ (q == 1)%Q.
Proof.
  apply (calc_IOU_self (Rect 1 2 4 7)).
  - split; simpl; lia.
  - vm_compute. discriminate.
Defined.

(** X5.  Corners are not validated: a rectangle whose corners are swapped
    along x (or along y), of non-zero area, has an empty intersection with
    itself, and its intersection over union with itself is 0. *)
Theorem calc_IOU_self_swapped (r : rect) :
  r2 r < r0 r ∨ r3 r < r1 r → calc_rect_size r ≠ 0 →
  calc_intersection r r = 0 ∧
  ∃ q, calc_IOU r r = Ok q ∧ (q == 0)%Q.
Proof.
  intros Hswap Hsize.
  assert (calc_intersection r r = 0) as Hinter.
  { unfold calc_intersection. rewrite !Z.max_id, !Z.min_id.
    destruct (Z.ltb_spec (r2 r) (r0 r)); [done|].
    destruct (Z.ltb_spec (r3 r) (r1 r)); [done|]. lia. }
  split; [done|]. eexists. unfold calc_IOU, calc_union. rewrite Hinter.
  split; [apply true_div_Ok; lia|].
  unfold Qdiv. apply Qmult_0_l.
Qed.

Lemma calc_IOU_self_swapped_witness :
  calc_intersection (Rect 4 0 0 3) (Rect 4 0 0 3) = 0 ∧
  ∃ q, calc_IOU (Rect 4 0 0 3) (Rect 4 0 0 3) = Ok q ∧ (q == 0)%Q.
Proof.
  apply (calc_IOU_self_swapped (Rect 4 0 0 3)).
  - left. simpl. lia.
  - vm_compute. discriminate.
Defined.

(** X6.  Two rectangles that lie apart or only touch along one axis have
    intersection 0, and, when the sum of their areas is not zero, an
    intersection over union of 0. *)
Theorem calc_IOU_apart (rect1 rect2 : rect) :
  r2 rect1 ≤ r0 rect2 ∨ r2 rect2 ≤ r0 rect1 ∨
  r3 rect1 ≤ r1 rect2 ∨ r3 rect2 ≤ r1 rect1 →
  calc_rect_size rect1 + calc_rect_size rect2 ≠ 0 →
  calc_intersection rect1 rect2 = 0 ∧
  ∃ q, calc_IOU rect1 rect2 = Ok q ∧ (q == 0)%Q.
Proof.
  intros Hapart Hsize.
  assert (calc_intersection rect1 rect2 = 0) as Hinter.
  { unfold calc_intersection. destruct (_ || _) eqn:Hinv; [done|].
    apply orb_false_elim in Hinv as [Hx%Z.ltb_ge Hy%Z.ltb_ge]. nia. }
  split; [done|]. eexists. unfold calc_IOU, calc_union. rewrite Hinter.
  split; [apply true_div_Ok; lia|].
  unfold Qdiv. apply Qmult_0_l.
Qed.

Lemma calc_IOU_apart_witness :
  calc_intersection (Rect 0 0 2 2) (Rect 5 5 7 7) = 0 ∧
  ∃ q, calc_IOU (Rect 0 0 2 2) (Rect 5 5 7 7) = Ok q ∧ (q == 0)%Q.
Proof.
  apply (calc_IOU_apart (Rect 0 0 2 2) (Rect 5 5 7 7)).
  - left. simpl. lia.
  - vm_compute. discriminate.
Defined.

(** ** The tiler *)

Lemma done_before_false (start_points : list (Z * Z)) axis v p :
  done_before start_points axis v = false → last start_points = Some p → v ≠ axis p.
Proof.
  unfold done_before. intros Hdone Hlast. rewrite Hlast in Hdone.
  by apply Z.eqb_neq.
Qed.

#[local] Instance point_lt_trans : Transitive point_lt.
Proof. intros p q r. unfold point_lt. lia. Qed.

Lemma point_lt_irrefl p : ¬ point_lt p p.
Proof. unfold point_lt. lia. Qed.

Lemma StronglySorted_point_lt_NoDup l : StronglySorted point_lt l → NoDup l.
Proof.
  induction 1 as [|p l _ IH Hall]; constructor; [|done].
  intros Hin. rewrite Forall_forall in Hall.
  by apply (point_lt_irrefl p), Hall.
Qed.

Section tiler_order.
Context {A : Type} (image : ndarray A) (window_size h : Z).

(** One column keeps the start points in visiting order. *)
Lemma cut_rows_sorted start_x end_x ys (st : @tiles A) :
  StronglySorted Z.lt ys →
  Sorted point_lt st.2 →
  (∀ p, last st.2 = Some p →
     p.1 < start_x ∨
     (p.1 = start_x ∧ ∀ y, y ∈ ys → p.2 ≤ Z.min (y + window_size) h - window_size)) →
  let st' := cut_rows image window_size h start_x end_x ys st in
  Sorted point_lt st'.2 ∧ ∀ p, last st'.2 = Some p → p.1 ≤ start_x.
Proof.
  revert st. induction ys as [|y ys IH]; intros st Hys Hsorted Hlast; simpl.
  { split; [done|]. intros p Hp. destruct (Hlast p Hp) as [?|[? _]]; lia. }
  destruct (done_before _ _ _) eqn:Hdone.
  { split; [done|]. intros p Hp. destruct (Hlast p Hp) as [?|[? _]]; lia. }
  apply StronglySorted_inv in Hys as [Hys Hlt].
  apply IH; [done|..]; simpl.
  - apply Sorted_snoc; [done|].
    destruct (last st.2) as [p|] eqn:Hp.
    + apply last_Some in Hp as Hsplit. destruct Hsplit as [l ->]. constructor.
      pose proof (done_before_false _ _ _ p Hdone Hp) as Hne.
      destruct (Hlast p eq_refl) as [Hcol|[Hcol Hrow]]; [by left|].
      right. split; [done|]. specialize (Hrow y ltac:(left)). simpl in *. lia.
    + apply last_None in Hp. rewrite Hp. constructor.
  - intros p. rewrite last_snoc. intros [= <-]. right. split; [done|].
    intros y' Hy'. rewrite Forall_forall in Hlt. specialize (Hlt y' Hy'). simpl. lia.
Qed.
End tiler_order.

Lemma cut_columns_sorted {A} (image : ndarray A) window_size step_size h w xs
    (st : @tiles A) :
  0 < step_size →
  StronglySorted Z.lt xs →
  Sorted point_lt st.2 →
  (∀ p x, last st.2 = Some p → x ∈ xs → p.1 ≤ Z.min (x + window_size) w - window_size) →
  ∃ st', cut_columns image window_size step_size h w xs st = Ok st' ∧
         Sorted point_lt st'.2.
Proof.
  intros Hstep. revert st.
  induction xs as [|x xs IH]; intros st Hxs Hsorted Hlast; simpl; [by exists st|].
  destruct (done_before _ _ _) eqn:Hdone; [by exists st|].
  rewrite py_range_ok by lia. simpl.
  apply StronglySorted_inv in Hxs as [Hxs Hlt].
  destruct (cut_rows_sorted image window_size h
              (Z.min (x + window_size) w - window_size) (Z.min (x + window_size) w)
              (range_elems 0 step_size (range_len 0 (h - step_size) step_size)) st)
    as [Hsorted' Hlast']; [by apply range_elems_StronglySorted|done|..].
  { intros p Hp. left.
    pose proof (done_before_false _ _ _ p Hdone Hp) as Hne.
    specialize (Hlast p x Hp ltac:(left)). simpl in *. lia. }
  apply IH; [done..|].
  intros p x' Hp Hx'. specialize (Hlast' p Hp).
  rewrite Forall_forall in Hlt. specialize (Hlt x' Hx'). lia.
Qed.

(** X7.  For an image and a window size within the exact range (at most
    [2 ^ 53] in absolute value) and a positive step, the start points are
    returned in strictly increasing order, by column and then by row: no
    window is cut twice. *)
Theorem cut_windows_no_duplicates {A} (image : ndarray A) (window_size : Z)
    (step_size : option Z) :
  within_exact_range image window_size →
  0 < effective_step window_size step_size →
  ∃ cuts start_points,
    cut_windows image window_size step_size = Ok (cuts, start_points) ∧
    StronglySorted point_lt start_points ∧ NoDup start_points.
Proof.
  intros _ Hstep. unfold cut_windows.
  rewrite py_range_ok by lia. simpl.
  destruct (cut_columns_sorted image window_size
              (effective_step window_size step_size)
              (Z.of_nat (shape0 image)) (Z.of_nat (shape1 image))
              (range_elems 0 (effective_step window_size step_size)
                 (range_len 0 (Z.of_nat (shape1 image) - effective_step window_size step_size)
                    (effective_step window_size step_size)))
              ([], []))
    as ([cuts pts] & Hrun & Hsorted); [done| |constructor|done|].
  { by apply range_elems_StronglySorted. }
  exists cuts, pts. split; [done|].
  apply (Sorted_StronglySorted point_lt) in Hsorted.
  split; [done|]. by apply StronglySorted_point_lt_NoDup.
Qed.

Lemma cut_windows_no_duplicates_witness :
  ∃ cuts start_points,
    cut_windows (full 7 9 0) 4 (Some 3) = Ok (cuts, start_points) ∧
    StronglySorted point_lt start_points ∧ NoDup start_points.
Proof.
  apply (cut_windows_no_duplicates (full 7 9 0) 4 (Some 3)).
  - unfold within_exact_range. simpl. lia.
  - vm_compute. reflexivity.
Defined.

(** X8.  For an image and a window size within the exact range (at most
    [2 ^ 53] in absolute value), [cut_windows] raises exactly when the step
    in effect is zero, and what it raises is the [ValueError] of [range];
    with the default step that is for the window sizes -1, 0 and 1. *)
Theorem cut_windows_raises_iff {A} (image : ndarray A) (window_size : Z)
    (step_size : option Z) :
  within_exact_range image window_size →
  (raises (cut_windows image window_size step_size) ↔
   effective_step window_size step_size = 0) ∧
  (effective_step window_size step_size = 0 →
   cut_windows image window_size step_size = Raise ValueError) ∧
  (effective_step window_size None = 0 ↔ -1 ≤ window_size ≤ 1).
Proof.
  intros _.
  assert (effective_step window_size step_size = 0 →
          cut_windows image window_size step_size = Raise ValueError) as Hzero.
  { intros Hs. unfold cut_windows. by rewrite Hs. }
  split; [|split; [done|]].
  - split.
    + intros Hraises.
      destruct (decide (effective_step window_size step_size = 0)) as [|Hne]; [done|].
      destruct (cut_windows_Forall2 image window_size (λ _ _, True) step_size Hne)
        as (cuts & pts & Hrun & _); [done|].
      rewrite Hrun in Hraises. by apply raises_Ok in Hraises.
    + intros Hs. rewrite (Hzero Hs). apply raises_Raise.
  - unfold effective_step, default_step.
    pose proof (Z.quot_small_iff window_size 2 ltac:(lia)) as Hsmall. lia.
Qed.

Lemma cut_windows_raises_iff_witness :
  (raises (cut_windows (full 5 5 0) 1 None) ↔ effective_step 1 None = 0) ∧
  (effective_step 1 None = 0 →
   cut_windows (full 5 5 0) 1 None = Raise ValueError) ∧
  (effective_step 1 None = 0 ↔ -1 ≤ 1 ≤ 1).
Proof.
  apply (cut_windows_raises_iff (full 5 5 0) 1 None).
  unfold within_exact_range. simpl. lia.
Defined.

(** X9.  Whenever [cut_windows] returns, it returns as many start points as
    cuts, and each cut is the slice of the image taken at its start point,
    [image[start_y:start_y + window_size, start_x:start_x + window_size]],
    also where that slice is cut short by the border of the image. *)
Theorem cut_windows_pairs {A} (image : ndarray A) (window_size : Z)
    (step_size : option Z) cuts start_points :
  cut_windows image window_size step_size = Ok (cuts, start_points) →
  length cuts = length start_points ∧
  ∀ i cut p, cuts !! i = Some cut → start_points !! i = Some p →
    cut = crop image p.2 (p.2 + window_size) p.1 (p.1 + window_size).
Proof.
  intros Hrun.
  destruct (decide (effective_step window_size step_size = 0)) as [Hs|Hs].
  { unfold cut_windows in Hrun. by rewrite Hs in Hrun. }
  destruct (cut_windows_Forall2 image window_size
              (λ cut p, cut = crop image p.2 (p.2 + window_size) p.1 (p.1 + window_size))
              step_size Hs) as (cuts' & pts' & Hrun' & Hall).
  { intros x y _ _ end_x end_y. simpl. f_equal; lia. }
  rewrite Hrun in Hrun'. simplify_eq.
  split; [by eapply Forall2_length|].
  intros i cut p Hcut Hp.
  by pose proof (Forall2_lookup_lr _ _ _ _ _ _ Hall Hcut Hp).
Qed.

Lemma cut_windows_pairs_witness :
  length [crop (full 2 2 0) (-1) 2 (-1) 2] = length [(-1, -1)] ∧
  ∀ i cut p, [crop (full 2 2 0) (-1) 2 (-1) 2] !! i = Some cut →
    [(-1, -1)] !! i = Some p →
    cut = crop (full 2 2 0) p.2 (p.2 + 3) p.1 (p.1 + 3).
Proof.
  apply (cut_windows_pairs (full 2 2 0) 3 (Some 1)). reflexivity.
Defined.

(** X10.  For an image and a window size within the exact range (at most
    [2 ^ 53] in absolute value), a negative step cuts nothing and raises
    nothing: the result is two empty lists. *)
Theorem cut_windows_negative_step {A} (image : ndarray A) (window_size : Z)
    (step_size : option Z) :
  within_exact_range image window_size →
  effective_step window_size step_size < 0 →
  cut_windows image window_size step_size = Ok ([], []).
Proof.
  intros _ Hs. unfold cut_windows. rewrite py_range_ok by lia.
  unfold range_len.
  destruct (Z.ltb_spec 0 (effective_step window_size step_size)); [lia|].
  destruct (Z.ltb_spec (Z.of_nat (shape1 image) - effective_step window_size step_size) 0);
    [lia|done].
Qed.

Lemma cut_windows_negative_step_witness :
  cut_windows (full 5 5 0) 2 (Some (-1)) = Ok ([], []).
Proof.
  apply (cut_windows_negative_step (full 5 5 0) 2 (Some (-1))).
  - unfold within_exact_range. simpl. lia.
  - vm_compute. reflexivity.
Defined.

(** ** The codec *)

Lemma class_id_of_colour_unmapped colour_mapping p :
  (∀ k, colour_mapping !! k ≠ Some p) → class_id_of_colour colour_mapping p = 0.
Proof.
  intros Hnone. unfold class_id_of_colour.
  destruct (last_write_cases (λ '(i, k), p =? colour_mapping !!! k)
              (λ '(i, k), uint8 (Z.of_nat i))
              (enumerate (sorted_keys colour_mapping)) 0)
    as [[_ ->]|(j & [i k] & Hj & Htest & _)]; [done|].
  apply lookup_enumerate in Hj as [-> Hk]. apply Z.eqb_eq in Htest.
  destruct (Hnone k). subst p. apply lookup_lookup_total.
  by apply elem_of_sorted_keys, list_elem_of_lookup_2 with j.
Qed.

Lemma class_id_of_colour_highest colour_mapping p j k :
  sorted_keys colour_mapping !! j = Some k →
  colour_mapping !! k = Some p →
  (∀ j' k', (j < j')%nat → sorted_keys colour_mapping !! j' = Some k' →
            colour_mapping !! k' ≠ Some p) →
  class_id_of_colour colour_mapping p = uint8 (Z.of_nat j).
Proof.
  intros Hj Hk Hlater. unfold class_id_of_colour.
  rewrite (last_write_lookup _ _ _ _ j (j, k)); [done|by apply lookup_enumerate|..].
  - rewrite (lookup_total_correct _ _ _ Hk). apply Z.eqb_refl.
  - intros j' [i' k'] Hlt [-> Hk']%lookup_enumerate.
    apply Z.eqb_neq. intros ->. apply (Hlater j' k' Hlt Hk').
    apply lookup_lookup_total.
    by apply elem_of_sorted_keys, list_elem_of_lookup_2 with j'.
Qed.

(** X11.  [colour_mask_to_class_id_mask] never raises and keeps the shape of
    the mask; a pixel whose colour is the colour of no class gets class id
    0, the id of the first class. *)
Theorem colour_mask_to_class_id_mask_unmapped (colour_mask : ndarray Z)
    (colour_mapping : gmap string Z) :
  wf_ndarray colour_mask →
  ∃ class_id_mask,
    colour_mask_to_class_id_mask colour_mask colour_mapping = Ok class_id_mask ∧
    wf_ndarray class_id_mask ∧
    shape0 class_id_mask = shape0 colour_mask ∧
    shape1 class_id_mask = shape1 colour_mask ∧
    ∀ y x p, get2 colour_mask y x = Some p →
      (∀ k, colour_mapping !! k ≠ Some p) →
      get2 class_id_mask y x = Some 0.
Proof.
  intros Hwf. eexists.
  split; [by apply colour_mask_to_class_id_mask_pointwise|].
  split; [by apply pointwise_wf|]. split; [done|]. split; [done|].
  intros y x p Hp Hnone. rewrite get2_pointwise, Hp. simpl.
  by rewrite class_id_of_colour_unmapped.
Qed.

Lemma colour_mask_to_class_id_mask_unmapped_witness :
  ∃ class_id_mask,
    colour_mask_to_class_id_mask (mk_ndarray 1 2 [[7; 9]]) reef_mapping = Ok class_id_mask ∧
    wf_ndarray class_id_mask ∧
    shape0 class_id_mask = 1%nat ∧
    shape1 class_id_mask = 2%nat ∧
    ∀ y x p, get2 (mk_ndarray 1 2 [[7; 9]]) y x = Some p →
      (∀ k, reef_mapping !! k ≠ Some p) →
      get2 class_id_mask y x = Some 0.
Proof.
  apply (colour_mask_to_class_id_mask_unmapped (mk_ndarray 1 2 [[7; 9]]) reef_mapping).
  split; [reflexivity|]. repeat constructor.
Defined.

(** X12.  When several classes have the colour of a pixel, the pixel gets the
    id of the last of them in sorted class-name order, stored modulo 256. *)
Theorem colour_mask_to_class_id_mask_highest (colour_mask : ndarray Z)
    (colour_mapping : gmap string Z) :
  wf_ndarray colour_mask →
  ∃ class_id_mask,
    colour_mask_to_class_id_mask colour_mask colour_mapping = Ok class_id_mask ∧
    ∀ y x p j k, get2 colour_mask y x = Some p →
      sorted_keys colour_mapping !! j = Some k →
      colour_mapping !! k = Some p →
      (∀ j' k', (j < j')%nat → sorted_keys colour_mapping !! j' = Some k' →
                colour_mapping !! k' ≠ Some p) →
      get2 class_id_mask y x = Some (Z.of_nat j mod 256).
Proof.
  intros Hwf. eexists.
  split; [by apply colour_mask_to_class_id_mask_pointwise|].
  intros y x p j k Hp Hj Hk Hlater. rewrite get2_pointwise, Hp. simpl. f_equal.
  by apply class_id_of_colour_highest with k.
Qed.

Lemma colour_mask_to_class_id_mask_highest_witness :
  ∃ class_id_mask,
    colour_mask_to_class_id_mask (mk_ndarray 1 1 [[5]]) many_mapping = Ok class_id_mask ∧
    ∀ y x p j k, get2 (mk_ndarray 1 1 [[5]]) y x = Some p →
      sorted_keys many_mapping !! j = Some k →
      many_mapping !! k = Some p →
      (∀ j' k', (j < j')%nat → sorted_keys many_mapping !! j' = Some k' →
                many_mapping !! k' ≠ Some p) →
      get2 class_id_mask y x = Some (Z.of_nat j mod 256).
Proof.
  apply (colour_mask_to_class_id_mask_highest (mk_ndarray 1 1 [[5]]) many_mapping).
  split; [reflexivity|]. repeat constructor.
Defined.

Lemma colour_of_class_id_out_of_range colour_mapping v :
  v < 0 ∨ Z.of_nat (size colour_mapping) ≤ v →
  colour_of_class_id colour_mapping v = 0.
Proof.
  intros Hv. unfold colour_of_class_id.
  destruct (last_write_cases (λ '(i, k), v =? Z.of_nat i)
              (λ '(i, k), uint8 (colour_mapping !!! k))
              (enumerate (sorted_keys colour_mapping)) 0)
    as [[_ ->]|(j & [i k] & Hj & Htest & _)]; [done|].
  apply lookup_enumerate in Hj as [-> Hk]. apply Z.eqb_eq in Htest.
  apply lookup_lt_Some in Hk. rewrite length_sorted_keys in Hk. lia.
Qed.

(** X13.  When every colour of the mapping fits a C long,
    [class_id_mask_to_colour_mask] returns and keeps the shape of the mask; a
    pixel whose value is not the index of a class, negative or at least the
    number of classes, gets colour 0. *)
Theorem class_id_mask_to_colour_mask_out_of_range (class_id_mask : ndarray Z)
    (colour_mapping : gmap string Z) :
  wf_ndarray class_id_mask →
  colours_fit_c_long colour_mapping →
  ∃ colour_mask,
    class_id_mask_to_colour_mask class_id_mask colour_mapping = Ok colour_mask ∧
    wf_ndarray colour_mask ∧
    shape0 colour_mask = shape0 class_id_mask ∧
    shape1 colour_mask = shape1 class_id_mask ∧
    ∀ y x v, get2 class_id_mask y x = Some v →
      v < 0 ∨ Z.of_nat (size colour_mapping) ≤ v →
      get2 colour_mask y x = Some 0.
Proof.
  intros Hwf Hfit. eexists.
  split; [by apply class_id_mask_to_colour_mask_pointwise|].
  split; [by apply pointwise_wf|]. split; [done|]. split; [done|].
  intros y x v Hv Hrange. rewrite get2_pointwise, Hv. simpl.
  by rewrite colour_of_class_id_out_of_range.
Qed.

Lemma class_id_mask_to_colour_mask_out_of_range_witness :
  ∃ colour_mask,
    class_id_mask_to_colour_mask (mk_ndarray 1 2 [[2; -1]]) reef_mapping = Ok colour_mask ∧
    wf_ndarray colour_mask ∧
    shape0 colour_mask = 1%nat ∧
    shape1 colour_mask = 2%nat ∧
    ∀ y x v, get2 (mk_ndarray 1 2 [[2; -1]]) y x = Some v →
      v < 0 ∨ Z.of_nat (size reef_mapping) ≤ v →
      get2 colour_mask y x = Some 0.
Proof.
  apply (class_id_mask_to_colour_mask_out_of_range (mk_ndarray 1 2 [[2; -1]]) reef_mapping).
  - split; [reflexivity|]. repeat constructor.
  - unfold colours_fit_c_long. apply (bool_decide_unpack _). vm_compute. exact I.
Defined.

(** X14.  With at most 256 classes, all of different colours in [0, 255],
    [class_id_mask_to_colour_mask] followed by
    [colour_mask_to_class_id_mask] gives back every class id that is the
    index of a class. *)
Theorem class_id_colour_round_trip (class_id_mask : ndarray Z)
    (colour_mapping : gmap string Z) :
  wf_ndarray class_id_mask →
  (size colour_mapping ≤ 256)%nat →
  (∀ k c, colour_mapping !! k = Some c → 0 ≤ c ≤ 255) →
  (∀ k1 k2 c, colour_mapping !! k1 = Some c → colour_mapping !! k2 = Some c → k1 = k2) →
  ∃ colour_mask class_id_mask',
    class_id_mask_to_colour_mask class_id_mask colour_mapping = Ok colour_mask ∧
    colour_mask_to_class_id_mask colour_mask colour_mapping = Ok class_id_mask' ∧
    ∀ y x i, get2 class_id_mask y x = Some (Z.of_nat i) →
      (i < size colour_mapping)%nat →
      get2 class_id_mask' y x = Some (Z.of_nat i).
Proof.
  intros Hwf Hsize Hrange Hinj. eexists _, _.
  split.
  { apply class_id_mask_to_colour_mask_pointwise; [done|].
    intros k c Hc. specialize (Hrange k c Hc). simpl. lia. }
  split; [by apply colour_mask_to_class_id_mask_pointwise, pointwise_wf|].
  intros y x i Hi Hlt. rewrite !get2_pointwise, Hi. simpl. f_equal.
  rewrite <-length_sorted_keys in Hlt.
  apply lookup_lt_is_Some_2 in Hlt as [k Hk].
  assert (is_Some (colour_mapping !! k)) as [c Hc]
    by (by apply elem_of_sorted_keys, list_elem_of_lookup_2 with i).
  rewrite (colour_of_class_id_index colour_mapping i k c Hk Hc).
  rewrite uint8_small by (specialize (Hrange k c Hc); lia).
  destruct (class_id_of_colour_found colour_mapping c k Hc) as (j & kj & Hj & Hkj & ->).
  assert (kj = k) as -> by by eapply Hinj.
  assert (j = i) as ->
    by exact (NoDup_lookup _ j i k (sorted_keys_NoDup colour_mapping) Hj Hk).
  apply uint8_small. apply lookup_lt_Some in Hk. rewrite length_sorted_keys in Hk. lia.
Qed.

Lemma class_id_colour_round_trip_witness :
  ∃ colour_mask class_id_mask',
    class_id_mask_to_colour_mask (mk_ndarray 1 2 [[1; 0]]) reef_mapping = Ok colour_mask ∧
    colour_mask_to_class_id_mask colour_mask reef_mapping = Ok class_id_mask' ∧
    ∀ y x i, get2 (mk_ndarray 1 2 [[1; 0]]) y x = Some (Z.of_nat i) →
      (i < size reef_mapping)%nat →
      get2 class_id_mask' y x = Some (Z.of_nat i).
Proof.
  apply (class_id_colour_round_trip (mk_ndarray 1 2 [[1; 0]]) reef_mapping).
  - split; [reflexivity|]. repeat constructor.
  - vm_compute. lia.
  - intros k c. unfold reef_mapping.
    rewrite lookup_insert_Some, lookup_singleton_Some. intros [[_ <-]|[_ [_ <-]]]; lia.
  - intros k1 k2 c. unfold reef_mapping.
    rewrite !lookup_insert_Some, !lookup_singleton_Some.
    intros [[<- <-]|[_ [<- <-]]] [[<- ?]|[_ [<- ?]]]; done.
Defined.

(** ** One-hot arrays *)

Lemma enumerate_snoc {B} (l : list B) x :
  enumerate (l ++ [x]) = enumerate l ++ [(length l, x)].
Proof.
  unfold enumerate. rewrite length_app. simpl.
  rewrite Nat.add_1_r, seq_S, zip_with_app by (by rewrite length_seq). done.
Qed.

Lemma for_each_app {S I} (items1 items2 : list I) (body : S → I → result S) s :
  for_each (items1 ++ items2) body s
  = for_each items1 body s ≫= for_each items2 body.
Proof.
  revert s. induction items1 as [|it items1 IH]; intros s; simpl; [done|].
  destruct (body s it) as [s'|e]; simpl; [apply IH|done].
Qed.

Lemma for_each_returns {S I} (items : list I) (body : S → I → result S) s :
  (∀ s it, it ∈ items → ∃ s', body s it = Ok s') →
  ∃ s', for_each items body s = Ok s'.
Proof.
  revert s. induction items as [|it items IH]; intros s Hbody; simpl; [by eexists|].
  destruct (Hbody s it) as [s' ->]; [by left|]. simpl.
  apply IH. intros s0 it' Hit'. apply Hbody. by right.
Qed.

(** A loop over a state that is an array read pixel by pixel, [pw f] being
    the array of the values [f p]. *)
Lemma for_each_fold {S B C I} (pw : (B → C) → S) (items : list I)
    (body : S → I → result S) (step : B → C → I → C) :
  (∀ f it, it ∈ items → body (pw f) it = Ok (pw (λ p, step p (f p) it))) →
  ∀ f, for_each items body (pw f) = Ok (pw (λ p, fold_left (step p) items (f p))).
Proof.
  induction items as [|it items IH]; intros Hbody f; simpl; [done|].
  rewrite Hbody by left. simpl.
  rewrite IH; [done|]. intros g it' Hit'. apply Hbody. by right.
Qed.

Lemma one_hot_fold_spec (test : string → bool) (n : nat) (keys : list string) :
  (length keys ≤ n)%nat →
  let cell := fold_left (λ cell '(i, k), if test k then <[i := 1]> cell else cell)
                (enumerate keys) (replicate n 0) in
  length cell = n ∧
  (∀ j k, keys !! j = Some k → cell !! j = Some (if test k then 1 else 0)) ∧
  (∀ j, (length keys ≤ j < n)%nat → cell !! j = Some 0).
Proof.
  induction keys as [|k keys IH] using rev_ind; intros Hlen; simpl.
  { split; [apply length_replicate|]. split; [done|].
    intros j Hj. apply lookup_replicate_2. lia. }
  rewrite length_app in Hlen. simpl in Hlen.
  destruct IH as (Hcell & Hset & Hrest); [lia|].
  rewrite enumerate_snoc, fold_left_app. simpl.
  set (cell := fold_left _ (enumerate keys) (replicate n 0)) in *.
  assert (length (if test k then <[length keys := 1]> cell else cell) = n) as Hlen'.
  { destruct (test k); [by rewrite length_insert|done]. }
  split; [done|]. split.
  - intros j k' Hj. destruct (decide (j = length keys)) as [->|Hne].
    + rewrite list_lookup_middle in Hj by done. simplify_eq.
      destruct (test k').
      * apply list_lookup_insert_eq. lia.
      * apply Hrest. lia.
    + assert (j < length keys)%nat.
      { apply lookup_lt_Some in Hj. rewrite length_app in Hj. simpl in Hj. lia. }
      rewrite lookup_app_l in Hj by done.
      destruct (test k); [rewrite list_lookup_insert_ne by done|]; by apply Hset.
  - intros j Hj. rewrite length_app in Hj. simpl in Hj.
    destruct (test k); [rewrite list_lookup_insert_ne by lia|]; apply Hrest; lia.
Qed.

Lemma length_keys (colour_mapping : gmap string Z) :
  length (elements (dom colour_mapping)) = size colour_mapping.
Proof. change (size (dom colour_mapping) = size colour_mapping). apply size_dom. Qed.

Lemma one_hot_cell_spec colour_mapping p :
  length (one_hot_cell colour_mapping p) = size colour_mapping ∧
  ∀ i k c, sorted_keys colour_mapping !! i = Some k → colour_mapping !! k = Some c →
    one_hot_cell colour_mapping p !! i = Some (if p =? c then 1 else 0).
Proof.
  destruct (one_hot_fold_spec (λ k, p =? colour_mapping !!! k)
              (length (elements (dom colour_mapping))) (sorted_keys colour_mapping))
    as (Hlen & Hset & _).
  { by rewrite sorted_keys_Permutation. }
  split.
  - unfold one_hot_cell. rewrite Hlen. apply length_keys.
  - intros i k c Hk Hc. unfold one_hot_cell. rewrite (Hset i k Hk).
    by rewrite (lookup_total_correct _ _ _ Hc).
Qed.

Lemma pointwise3_wf {B C} n (f : B → list C) (a : ndarray B) :
  wf_ndarray a → (∀ p, length (f p) = n) → wf_ndarray3 (pointwise3 n f a).
Proof.
  intros [Hlen Hrows] Hf. split; simpl; unfold map2d.
  - by rewrite length_fmap.
  - apply Forall_fmap. eapply Forall_impl; [exact Hrows|].
    intros r Hr. simpl. split; [by rewrite length_fmap|].
    apply Forall_fmap, Forall_forall. intros p _. apply Hf.
Qed.

Lemma mask_to_one_hot_pointwise mask colour_mapping :
  wf_ndarray mask →
  mask_to_one_hot mask colour_mapping
  = Ok (pointwise3 (length (elements (dom colour_mapping)))
          (one_hot_cell colour_mapping) mask).
Proof.
  intros Hwf. unfold mask_to_one_hot.
  set (n := length (elements (dom colour_mapping))).
  pose proof (full_pointwise mask (replicate n 0) Hwf) as Hfull.
  unfold full, pointwise in Hfull. injection Hfull as Hfull. rewrite Hfull.
  apply (for_each_fold (λ f, pointwise3 n f mask) _ _
           (λ p cell '(i, k), if p =? colour_mapping !!! k then <[i := 1]> cell else cell)).
  intros f [i k] [Hk Hi]%elem_of_enumerate.
  rewrite getitem_sorted_keys by done. simpl.
  unfold assign_channel_where. simpl.
  rewrite decide_True by (by rewrite sorted_keys_Permutation in Hi).
  unfold pointwise3. simpl. by rewrite zip2d_map2d.
Qed.

(** X15.  [mask_to_one_hot] never raises.  Its result has the height and
    width of the mask and one channel per class, and at every pixel channel
    [i] is 1 when the pixel has the colour of class [i] and 0 otherwise: a
    pixel of a colour of no class has all its channels at 0. *)
Theorem mask_to_one_hot_channels (mask : ndarray Z) (colour_mapping : gmap string Z) :
  wf_ndarray mask →
  ∃ one_hot,
    mask_to_one_hot mask colour_mapping = Ok one_hot ∧
    wf_ndarray3 one_hot ∧
    dim0 one_hot = shape0 mask ∧ dim1 one_hot = shape1 mask ∧
    dim2 one_hot = size colour_mapping ∧
    ∀ y x p, get2 mask y x = Some p →
      ∃ cell, get3 one_hot y x = Some cell ∧
        ∀ i k c, sorted_keys colour_mapping !! i = Some k →
          colour_mapping !! k = Some c →
          cell !! i = Some (if p =? c then 1 else 0).
Proof.
  intros Hwf. eexists.
  split; [by apply mask_to_one_hot_pointwise|].
  split.
  { apply pointwise3_wf; [done|]. intros p.
    rewrite (proj1 (one_hot_cell_spec colour_mapping p)). symmetry. apply length_keys. }
  split; [done|]. split; [done|]. split; [apply length_keys|].
  intros y x p Hp. exists (one_hot_cell colour_mapping p). split.
  - change (get3 (pointwise3 ?n ?f mask) y x) with (get2 (pointwise f mask) y x).
    by rewrite get2_pointwise, Hp.
  - apply one_hot_cell_spec.
Qed.

Lemma mask_to_one_hot_channels_witness :
  ∃ one_hot,
    mask_to_one_hot (mk_ndarray 1 2 [[5; 9]]) reef_mapping = Ok one_hot ∧
    wf_ndarray3 one_hot ∧
    dim0 one_hot = 1%nat ∧ dim1 one_hot = 2%nat ∧
    dim2 one_hot = size reef_mapping ∧
    ∀ y x p, get2 (mk_ndarray 1 2 [[5; 9]]) y x = Some p →
      ∃ cell, get3 one_hot y x = Some cell ∧
        ∀ i k c, sorted_keys reef_mapping !! i = Some k →
          reef_mapping !! k = Some c →
          cell !! i = Some (if p =? c then 1 else 0).
Proof.
  apply (mask_to_one_hot_channels (mk_ndarray 1 2 [[5; 9]]) reef_mapping).
  split; [reflexivity|]. repeat constructor.
Defined.

Lemma colour_of_one_hot_cell colour_mapping p :
  ((∃ k, colour_mapping !! k = Some p) →
   colour_of_cell colour_mapping (one_hot_cell colour_mapping p) = uint8 p) ∧
  ((∀ k, colour_mapping !! k ≠ Some p) →
   colour_of_cell colour_mapping (one_hot_cell colour_mapping p) = 0).
Proof.
  destruct (one_hot_cell_spec colour_mapping p) as [_ Hcell].
  assert (∀ j k, sorted_keys colour_mapping !! j = Some k →
            (one_hot_cell colour_mapping p !!! j =? 1) = (p =? colour_mapping !!! k))
    as Htest.
  { intros j k Hk.
    assert (is_Some (colour_mapping !! k)) as [c Hc]
      by (by apply elem_of_sorted_keys, list_elem_of_lookup_2 with j).
    rewrite (list_lookup_total_correct _ _ _ (Hcell j k c Hk Hc)).
    rewrite (lookup_total_correct _ _ _ Hc). by destruct (p =? c). }
  unfold colour_of_cell.
  destruct (last_write_cases (λ '(i, k), one_hot_cell colour_mapping p !!! i =? 1)
              (λ '(i, k), uint8 (colour_mapping !!! k))
              (enumerate (sorted_keys colour_mapping)) 0)
    as [[Hall ->]|(j & [i k] & Hj & Hon & _ & ->)].
  - split; [|done]. intros [k Hk].
    assert (k ∈ sorted_keys colour_mapping) as (j & Hj)%list_elem_of_lookup
      by (by apply elem_of_sorted_keys).
    rewrite Forall_lookup in Hall.
    specialize (Hall j (j, k) (proj2 (lookup_enumerate _ j j k) (conj eq_refl Hj))).
    simpl in Hall. rewrite (Htest j k Hj), (lookup_total_correct _ _ _ Hk) in Hall.
    by rewrite Z.eqb_refl in Hall.
  - apply lookup_enumerate in Hj as [-> Hk].
    rewrite (Htest j k Hk) in Hon. apply Z.eqb_eq in Hon. split.
    + intros _. by rewrite Hon.
    + intros Hnone. destruct (Hnone k). rewrite Hon. apply lookup_lookup_total.
      by apply elem_of_sorted_keys, list_elem_of_lookup_2 with j.
Qed.

(** X16.  When every colour of the mapping fits a C long, [mask_to_one_hot]
    followed by [one_hot_to_mask] returns, for any number of classes: a
    pixel whose colour is the colour of some class comes back with that
    colour modulo 256, so unchanged when the colour is in [0, 255], and a
    pixel of a colour of no class comes back as 0. *)
Theorem one_hot_round_trip (mask : ndarray Z) (colour_mapping : gmap string Z) :
  wf_ndarray mask →
  colours_fit_c_long colour_mapping →
  ∃ one_hot mask',
    mask_to_one_hot mask colour_mapping = Ok one_hot ∧
    one_hot_to_mask one_hot colour_mapping = Ok mask' ∧
    ∀ y x p, get2 mask y x = Some p →
      ((∃ k, colour_mapping !! k = Some p) → get2 mask' y x = Some (p mod 256)) ∧
      ((∃ k, colour_mapping !! k = Some p) → 0 ≤ p ≤ 255 → get2 mask' y x = Some p) ∧
      ((∀ k, colour_mapping !! k ≠ Some p) → get2 mask' y x = Some 0).
Proof.
  intros Hwf Hfit. eexists _, _.
  split; [by apply mask_to_one_hot_pointwise|].
  split.
  { apply one_hot_to_mask_pointwise; [..|done].
    - apply pointwise3_wf; [done|]. intros p.
      rewrite (proj1 (one_hot_cell_spec colour_mapping p)). symmetry. apply length_keys.
    - simpl. by rewrite length_keys. }
  intros y x p Hp.
  change (as_cells (pointwise3 ?n ?f mask)) with (pointwise f mask).
  rewrite !get2_pointwise, Hp. simpl.
  destruct (colour_of_one_hot_cell colour_mapping p) as [Hmapped Hunmapped].
  split; [|split].
  - intros Hk. by rewrite (Hmapped Hk).
  - intros Hk Hrange. rewrite (Hmapped Hk). f_equal. apply uint8_small. lia.
  - intros Hnone. by rewrite (Hunmapped Hnone).
Qed.

Lemma one_hot_round_trip_witness :
  ∃ one_hot mask',
    mask_to_one_hot (mk_ndarray 1 3 [[5; 300; 9]]) wide_mapping = Ok one_hot ∧
    one_hot_to_mask one_hot wide_mapping = Ok mask' ∧
    ∀ y x p, get2 (mk_ndarray 1 3 [[5; 300; 9]]) y x = Some p →
      ((∃ k, wide_mapping !! k = Some p) → get2 mask' y x = Some (p mod 256)) ∧
      ((∃ k, wide_mapping !! k = Some p) → 0 ≤ p ≤ 255 → get2 mask' y x = Some p) ∧
      ((∀ k, wide_mapping !! k ≠ Some p) → get2 mask' y x = Some 0).
Proof.
  apply (one_hot_round_trip (mk_ndarray 1 3 [[5; 300; 9]]) wide_mapping).
  - split; [reflexivity|]. repeat constructor.
  - unfold colours_fit_c_long. apply (bool_decide_unpack _). vm_compute. exact I.
Defined.

(** X17.  When the one-hot array has fewer channels than the mapping has
    classes, and the colours of the classes that do have a channel fit a C
    long, [one_hot_to_mask] raises [IndexError], whatever the pixels hold,
    also for an array without pixels. *)
Theorem one_hot_to_mask_too_few_channels (one_hot : ndarray3 Z)
    (colour_mapping : gmap string Z) :
  (dim2 one_hot < size colour_mapping)%nat →
  (∀ j k c, (j < dim2 one_hot)%nat → sorted_keys colour_mapping !! j = Some k →
            colour_mapping !! k = Some c → - 2 ^ 63 ≤ c < 2 ^ 63) →
  one_hot_to_mask one_hot colour_mapping = Raise IndexError.
Proof.
  intros Hfew Hfit. unfold one_hot_to_mask.
  set (items := enumerate (sorted_keys colour_mapping)).
  rewrite <-length_sorted_keys in Hfew.
  apply lookup_lt_is_Some_2 in Hfew as [k Hk].
  assert (items !! dim2 one_hot = Some (dim2 one_hot, k)) as Hitem
    by (by apply lookup_enumerate).
  rewrite <-(take_drop_middle items _ _ Hitem), for_each_app.
  destruct (for_each_returns (take (dim2 one_hot) items)
              (λ mask '(i, k),
                 c ← getitem colour_mapping k;
                 ch ← channel one_hot i;
                 assign_where_int mask (eq_scalar ch 1) c)
              (full (dim0 one_hot) (dim1 one_hot) 0)) as [s Hs].
  { intros s [i k'] (j & Hj)%list_elem_of_lookup.
    apply lookup_take_Some in Hj as [Hj Hlt].
    apply lookup_enumerate in Hj as [-> Hk'].
    assert (is_Some (colour_mapping !! k')) as [c Hc]
      by (by apply elem_of_sorted_keys, list_elem_of_lookup_2 with j).
    rewrite (getitem_Ok _ _ _ Hc). simpl.
    rewrite channel_Ok by done. simpl.
    rewrite assign_where_int_Ok by (by eapply Hfit). by eexists. }
  rewrite Hs. simpl.
  rewrite getitem_sorted_keys by (by eapply list_elem_of_lookup_2). simpl.
  by rewrite channel_Raise.
Qed.

Lemma one_hot_to_mask_too_few_channels_witness :
  one_hot_to_mask (mk_ndarray3 0 0 2 []) three_mapping = Raise IndexError.
Proof.
  apply (one_hot_to_mask_too_few_channels (mk_ndarray3 0 0 2 []) three_mapping).
  - vm_compute. lia.
  - intros j k c Hj Hk Hc.
    assert (map_Forall (λ _ c, - 2 ^ 63 ≤ c < 2 ^ 63) three_mapping) as Hall
      by (apply (bool_decide_unpack _); vm_compute; exact I).
    exact (Hall k c Hc).
Defined.

Lemma colour_of_cell_all_off colour_mapping (cell : list Z) :
  (size colour_mapping ≤ length cell)%nat →
  (∀ j, (j < size colour_mapping)%nat → cell !! j ≠ Some 1) →
  colour_of_cell colour_mapping cell = 0.
Proof.
  intros Hsize Hoff. unfold colour_of_cell.
  destruct (last_write_cases (λ '(i, k), cell !!! i =? 1)
              (λ '(i, k), uint8 (colour_mapping !!! k))
              (enumerate (sorted_keys colour_mapping)) 0)
    as [[_ ->]|(j & [i k] & Hj & Hon & _)]; [done|].
  apply lookup_enumerate in Hj as [-> Hk]. apply Z.eqb_eq in Hon.
  apply lookup_lt_Some in Hk. rewrite length_sorted_keys in Hk.
  destruct (Hoff j Hk). rewrite <-Hon. apply list_lookup_lookup_total_lt. lia.
Qed.

(** X18.  With at least as many channels as classes and every colour of the
    mapping fitting a C long, [one_hot_to_mask] returns a mask of the height
    and width of the one-hot array, and a pixel none of whose class channels
    is 1 gets colour 0. *)
Theorem one_hot_to_mask_all_off (one_hot : ndarray3 Z) (colour_mapping : gmap string Z) :
  wf_ndarray3 one_hot →
  (size colour_mapping ≤ dim2 one_hot)%nat →
  colours_fit_c_long colour_mapping →
  ∃ mask,
    one_hot_to_mask one_hot colour_mapping = Ok mask ∧
    wf_ndarray mask ∧
    shape0 mask = dim0 one_hot ∧ shape1 mask = dim1 one_hot ∧
    ∀ y x cell, get3 one_hot y x = Some cell →
      (∀ j, (j < size colour_mapping)%nat → cell !! j ≠ Some 1) →
      get2 mask y x = Some 0.
Proof.
  intros Hwf Hsize Hfit. eexists.
  split; [by apply one_hot_to_mask_pointwise|].
  split; [by apply pointwise_wf, as_cells_wf|]. split; [done|]. split; [done|].
  intros y x cell Hcell Hoff. rewrite get2_pointwise.
  change (get2 (as_cells one_hot) y x) with (get3 one_hot y x).
  rewrite Hcell. simpl. f_equal.
  apply colour_of_cell_all_off; [|done].
  by rewrite (get3_length one_hot y x cell).
Qed.

Lemma one_hot_to_mask_all_off_witness :
  ∃ mask,
    one_hot_to_mask (mk_ndarray3 1 2 2 [[[0; 0]; [0; 1]]]) reef_mapping = Ok mask ∧
    wf_ndarray mask ∧
    shape0 mask = 1%nat ∧ shape1 mask = 2%nat ∧
    ∀ y x cell, get3 (mk_ndarray3 1 2 2 [[[0; 0]; [0; 1]]]) y x = Some cell →
      (∀ j, (j < size reef_mapping)%nat → cell !! j ≠ Some 1) →
      get2 mask y x = Some 0.
Proof.
  apply (one_hot_to_mask_all_off (mk_ndarray3 1 2 2 [[[0; 0]; [0; 1]]]) reef_mapping).
  - split; [reflexivity|]. repeat constructor.
  - vm_compute. lia.
  - unfold colours_fit_c_long. apply (bool_decide_unpack _). vm_compute. exact I.
Defined.

(** ** Class weights *)

Lemma mapM_result_first_Raise {B C} (f : B → result C) l1 x l2 e :
  Forall (λ y, ∃ v, f y = Ok v) l1 → f x = Raise e →
  mapM f (l1 ++ x :: l2) = Raise e.
Proof.
  intros Hl1 Hx. induction Hl1 as [|y l1 [v Hy] _ IH]; simpl.
  - by rewrite Hx.
  - rewrite Hy. simpl. by rewrite IH.
Qed.

Lemma mapM_result_ext {B C} (f g : B → result C) l :
  (∀ x, x ∈ l → f x = g x) → mapM f l = mapM g l.
Proof.
  induction l as [|x l IH]; intros Hfg; simpl; [done|].
  rewrite (Hfg x) by left. rewrite IH; [done|]. intros y Hy. apply Hfg. by right.
Qed.

Lemma mapM_result_length {B C} (f : B → result C) l vs :
  mapM f l = Ok vs → length vs = length l ∧ ∀ x, x ∈ l → ∃ v, f x = Ok v.
Proof.
  revert vs. induction l as [|x l IH]; intros vs; simpl.
  { intros [= <-]. split; [done|]. by intros x ?%elem_of_nil. }
  destruct (f x) as [v|e] eqn:Hx; [|done]. simpl.
  destruct (mapM f l) as [vs'|e]; [|done]. simpl. intros [= <-].
  destruct (IH vs' eq_refl) as [Hlen Hall]. split; [by rewrite <-Hlen|].
  intros y [->|Hy]%elem_of_cons; [by eexists|by apply Hall].
Qed.

Section weights_more.
Context {F : Type} (f_one : F) (f_add f_div : F → F → F) (f_log : F → F).
Implicit Types (stats : gmap string (gmap string F)) (colour_mapping : gmap string Z).

Lemma read_share stats c :
  (entry ← getitem stats c; getitem entry "share"%string)
  = match share_of stats c with
    | Some share => Ok share
    | None => Raise (KeyError (match stats !! c with Some _ => "share"%string | None => c end))
    end.
Proof.
  unfold share_of, getitem. destruct (stats !! c) as [entry|]; simpl; [|done].
  by destruct (entry !! "share"%string).
Qed.

(** X19.  [calculate_class_weights] returns exactly when every class of the
    mapping has an entry with a share, and then returns as many weights as
    there are classes. *)
Theorem calculate_class_weights_returns_iff stats colour_mapping (modifier : F) :
  let run := calculate_class_weights f_one f_add f_div f_log stats colour_mapping modifier in
  ((∃ weights, run = Ok weights) ↔
   ∀ c, c ∈ dom colour_mapping → is_Some (share_of stats c)) ∧
  (∀ weights, run = Ok weights → length weights = size colour_mapping).
Proof.
  intros run. unfold run, calculate_class_weights. split; [split|].
  - intros [weights Hrun] c Hc.
    destruct (mapM _ (sorted_keys colour_mapping)) as [shares|e] eqn:Hshares; [|done].
    apply mapM_result_length in Hshares as [_ Hall].
    destruct (Hall c) as [v Hv]; [by apply elem_of_sorted_keys, elem_of_dom|].
    rewrite read_share in Hv. by destruct (share_of stats c).
  - intros Hall.
    rewrite (mapM_result_Ok _ (λ c, default f_one (share_of stats c))).
    + simpl. by eexists.
    + intros c Hc%elem_of_sorted_keys%elem_of_dom. rewrite read_share.
      by destruct (Hall c Hc) as [share ->].
  - intros weights.
    destruct (mapM _ (sorted_keys colour_mapping)) as [shares|e] eqn:Hshares; [|done].
    apply mapM_result_length in Hshares as [Hlen _]. simpl. intros [= <-].
    by rewrite length_fmap, Hlen, length_sorted_keys.
Qed.

(** X20.  The classes are read in sorted class-name order and the first one
    without a usable share decides the error: [KeyError] of the class name
    when the class has no entry, of ["share"] when its entry has no share.
    Classes after it are not looked at. *)
Theorem calculate_class_weights_first_missing stats colour_mapping (modifier : F) j c :
  sorted_keys colour_mapping !! j = Some c →
  share_of stats c = None →
  (∀ j' c', (j' < j)%nat → sorted_keys colour_mapping !! j' = Some c' →
            is_Some (share_of stats c')) →
  calculate_class_weights f_one f_add f_div f_log stats colour_mapping modifier
  = Raise (KeyError (match stats !! c with Some _ => "share"%string | None => c end)).
Proof.
  intros Hc Hnone Hbefore. unfold calculate_class_weights.
  rewrite <-(take_drop_middle _ _ _ Hc).
  rewrite (mapM_result_first_Raise _ _ _ _
             (KeyError (match stats !! c with Some _ => "share"%string | None => c end))); [done|..].
  - apply Forall_forall. intros c' (j' & Hj')%list_elem_of_lookup.
    apply lookup_take_Some in Hj' as [Hj' Hlt].
    rewrite read_share. destruct (Hbefore j' c' Hlt Hj') as [share ->]. by eexists.
  - by rewrite read_share, Hnone.
Qed.
End weights_more.

Lemma calculate_class_weights_first_missing_witness :
  calculate_class_weights "1"%string sym_add sym_div sym_log half_stats reef_mapping
    "1.01"%string
  = Raise (KeyError "sand").
Proof.
  apply (calculate_class_weights_first_missing "1"%string sym_add sym_div sym_log
           half_stats reef_mapping "1.01"%string 1 "sand"%string).
  - vm_compute. reflexivity.
  - vm_compute. reflexivity.
  - intros j' c' Hlt Hj'. assert (j' = 0%nat) as -> by lia.
    vm_compute in Hj'. injection Hj' as <-. vm_compute. by eexists.
Defined.

(** X21.  Entries of the statistics for classes that are not in the mapping
    are never read: two statistics that agree on the classes of the mapping
    give the same result, weights or error. *)
Theorem calculate_class_weights_only_mapping_classes {F} (f_one : F)
    (f_add f_div : F → F → F) (f_log : F → F)
    (stats1 stats2 : gmap string (gmap string F)) (colour_mapping : gmap string Z)
    (modifier : F) :
  (∀ c, c ∈ dom colour_mapping → stats1 !! c = stats2 !! c) →
  calculate_class_weights f_one f_add f_div f_log stats1 colour_mapping modifier
  = calculate_class_weights f_one f_add f_div f_log stats2 colour_mapping modifier.
Proof.
  intros Hagree. unfold calculate_class_weights.
  rewrite (mapM_result_ext _
             (λ c, entry ← getitem stats2 c; getitem entry "share"%string)); [done|].
  intros c Hc%elem_of_sorted_keys%elem_of_dom.
  unfold getitem. by rewrite (Hagree c Hc).
Qed.

Lemma calculate_class_weights_only_mapping_classes_witness :
  calculate_class_weights "1"%string sym_add sym_div sym_log half_stats coral_mapping
    "1.01"%string
  = calculate_class_weights "1"%string sym_add sym_div sym_log
      (<["sand"%string := ∅]> half_stats) coral_mapping "1.01"%string.
Proof.
  apply (calculate_class_weights_only_mapping_classes "1"%string sym_add sym_div sym_log
           half_stats (<["sand"%string := ∅]> half_stats) coral_mapping "1.01"%string).
  intros c Hc. unfold coral_mapping in Hc.
  rewrite dom_singleton_L, elem_of_singleton in Hc. subst c. reflexivity.
Defined.

(** ** Loading a state dictionary *)

Section state_dict_facts.
Context {Tensor Shape : Type} `{EqDecision Shape} (shape : Tensor → Shape).
Implicit Types (params pretrained_dict : gmap string Tensor).

(** The dictionary handed to the module: per name, the pretrained tensor
    when the module has a parameter of that name and shape, and the
    parameter of the module otherwise. *)
Lemma merged_lookup params pretrained_dict k :
  (filter (λ kv, shape <$> params !! kv.1 = Some (shape kv.2)) pretrained_dict ∪ params)
    !! k
  = match params !! k, pretrained_dict !! k with
    | Some t, Some t' => if decide (shape t = shape t') then Some t' else Some t
    | Some t, None => Some t
    | None, _ => None
    end.
Proof.
  rewrite lookup_union, map_lookup_filter. simpl.
  destruct (params !! k) as [t|] eqn:Ht, (pretrained_dict !! k) as [t'|]; simpl;
    try done.
  case_guard as Hguard; simpl.
  - rewrite decide_True by congruence. done.
  - rewrite decide_False by congruence. done.
Qed.

Lemma load_state_dict_accepted params pretrained_dict :
  load_state_dict shape params pretrained_dict
  = Some (filter (λ kv, shape <$> params !! kv.1 = Some (shape kv.2)) pretrained_dict
          ∪ params).
Proof.
  unfold load_state_dict, module_load_state_dict. apply decide_True. split.
  - apply set_eq. intros k. rewrite !elem_of_dom, merged_lookup.
    destruct (params !! k) as [t|], (pretrained_dict !! k) as [t'|];
      try case_decide; split; intros [? ?]; simplify_eq; eauto.
  - intros k t. rewrite merged_lookup.
    destruct (params !! k) as [t0|], (pretrained_dict !! k) as [t'|];
      try case_decide; intros ?; simplify_eq/=; congruence.
Qed.

(** X22.  [load_state_dict] never fails the strict load of the module: the
    module keeps exactly its parameter names, and every parameter keeps its
    shape, whatever the pretrained dictionary holds. *)
Theorem load_state_dict_keeps_structure params pretrained_dict :
  ∃ params',
    load_state_dict shape params pretrained_dict = Some params' ∧
    dom params' = dom params ∧
    ∀ k t t', params !! k = Some t → params' !! k = Some t' → shape t' = shape t.
Proof.
  eexists. split; [apply load_state_dict_accepted|]. split.
  - apply set_eq. intros k. rewrite !elem_of_dom, merged_lookup.
    destruct (params !! k) as [t|], (pretrained_dict !! k) as [t'|];
      try case_decide; split; intros [? ?]; simplify_eq; eauto.
  - intros k t t' Ht. rewrite merged_lookup, Ht.
    destruct (pretrained_dict !! k) as [t0|]; try case_decide; intros ?; simplify_eq;
      congruence.
Qed.

(** X23.  The dictionary that [load_state_dict] hands to the module on line
    96 is [model_dict] as the update of line 94 leaves it, and it holds, per
    name: the pretrained tensor when the module has a parameter of that name
    and of the same shape; the module's own tensor when the pretrained one
    has another shape or there is none; nothing under a name the module does
    not have.  (What the module then stores is that tensor converted to the
    dtype of its parameter.) *)
Theorem updated_model_dict_entries params pretrained_dict k :
  load_state_dict shape params pretrained_dict
  = module_load_state_dict shape params
      (updated_model_dict shape params pretrained_dict) ∧
  updated_model_dict shape params pretrained_dict !! k
  = match params !! k, pretrained_dict !! k with
    | Some t, Some t' => if decide (shape t = shape t') then Some t' else Some t
    | Some t, None => Some t
    | None, _ => None
    end.
Proof.
  split; [reflexivity|]. unfold updated_model_dict. apply merged_lookup.
Qed.

(** X24.  Loading the same pretrained dictionary a second time changes
    nothing, and loading a module's own state dictionary leaves it as it
    is. *)
Theorem load_state_dict_idempotent params pretrained_dict params' :
  load_state_dict shape params pretrained_dict = Some params' →
  load_state_dict shape params' pretrained_dict = Some params' ∧
  load_state_dict shape params params = Some params.
Proof.
  rewrite load_state_dict_accepted. intros [= <-]. split.
  - rewrite load_state_dict_accepted. f_equal. apply map_eq. intros k.
    rewrite !merged_lookup.
    destruct (params !! k) as [t|], (pretrained_dict !! k) as [t'|];
      repeat case_decide; simplify_eq; try done; congruence.
  - rewrite load_state_dict_accepted. f_equal. apply map_eq. intros k.
    rewrite merged_lookup. destruct (params !! k) as [t|]; [|done].
    by rewrite decide_True.
Qed.
End state_dict_facts.

Lemma updated_model_dict_entries_witness :
  updated_model_dict length body_head_params body_head_pretrained
    !! "body.weight"%string = Some [7; 8]%nat ∧
  updated_model_dict length body_head_params body_head_pretrained
    !! "head.weight"%string = Some [3]%nat ∧
  updated_model_dict length body_head_params body_head_pretrained
    !! "aux.weight"%string = None.
Proof.
  split; [|split].
  - rewrite (proj2 (updated_model_dict_entries length body_head_params
                      body_head_pretrained "body.weight"%string)).
    vm_compute. reflexivity.
  - rewrite (proj2 (updated_model_dict_entries length body_head_params
                      body_head_pretrained "head.weight"%string)).
    vm_compute. reflexivity.
  - rewrite (proj2 (updated_model_dict_entries length body_head_params
                      body_head_pretrained "aux.weight"%string)).
    vm_compute. reflexivity.
Defined.

Lemma load_state_dict_idempotent_witness :
  load_state_dict length {[ "body.weight"%string := [7; 8]%nat ]}
    {[ "body.weight"%string := [7; 8]%nat ]}
  = Some {[ "body.weight"%string := [7; 8]%nat ]} ∧
  load_state_dict length {[ "body.weight"%string := [1; 2]%nat ]}
    {[ "body.weight"%string := [1; 2]%nat ]}
  = Some {[ "body.weight"%string := [1; 2]%nat ]}.
Proof.
  refine (load_state_dict_idempotent length
            {[ "body.weight"%string := [1; 2]%nat ]}
            {[ "body.weight"%string := [7; 8]%nat ]}
            {[ "body.weight"%string := [7; 8]%nat ]} _).
  vm_compute. reflexivity.
Defined.

(** ** The saver: files that never collide *)

Lemma str_of_int_inj n n' : str_of_int n = str_of_int n' → n = n'.
Proof.
  unfold str_of_int. intros Heq. apply DecimalZ.to_int_inj.
  assert (∀ z, NilZero.int_of_string (NilZero.string_of_int (Z.to_int z))
               = Some (Z.to_int z)) as Hparse.
  { intros z. apply NilZero.isi; destruct z; cbn [Z.to_int]; try discriminate;
      intros [= Hnil]; by apply DecimalPos.Unsigned.to_uint_nonnil in Hnil. }
  pose proof (Hparse n) as Hn. rewrite Heq, Hparse in Hn. congruence.
Qed.

Lemma list_ascii_of_string_app (s t : string) :
  list_ascii_of_string (s +:+ t) = list_ascii_of_string s ++ list_ascii_of_string t.
Proof. induction s as [|a s IH]; simpl; [done|]. by rewrite IH. Qed.

Lemma string_app_inj_r (s1 s2 t : string) :
  (s1 +:+ t)%string = (s2 +:+ t)%string → s1 = s2.
Proof.
  intros Heq%(f_equal list_ascii_of_string).
  rewrite !list_ascii_of_string_app in Heq. apply app_inv_tail in Heq.
  by rewrite <-(string_of_list_ascii_of_string s1),
    <-(string_of_list_ascii_of_string s2), Heq.
Qed.

Section saver_more.
Context {Model Contents Instructions : Type}.
Context (state_bytes : Model → Contents) (json_dump : Instructions → Contents).
Implicit Types (self : @Saver Instructions) (fs : gmap string Contents).

Lemma checkpoint_path_inj self epoch epoch' :
  checkpoint_path self epoch = checkpoint_path self epoch' → epoch = epoch'.
Proof.
  unfold checkpoint_path. intros Heq%path_join_inj; [|done..].
  apply (inj _) in Heq. by apply string_app_inj_r, str_of_int_inj in Heq.
Qed.

Lemma instructions_path_not_checkpoint self epoch :
  instructions_path self ≠ checkpoint_path self epoch.
Proof. unfold instructions_path, checkpoint_path. intros Heq%path_join_inj; done. Qed.

Lemma instructions_path_not_best self : instructions_path self ≠ best_path self.
Proof. unfold instructions_path, best_path. intros Heq%path_join_inj; done. Qed.

Lemma save_checkpoint_returns self model is_best epoch fs :
  ∃ fs', save_checkpoint state_bytes self model is_best epoch fs = Ok fs' ∧
    ∀ path, path ≠ checkpoint_path self epoch → path ≠ best_path self →
      fs' !! path = fs !! path.
Proof.
  unfold save_checkpoint, copyfile, torch_save. destruct is_best.
  - rewrite lookup_insert_eq. eexists. split; [done|].
    intros path Hckpt Hbest. by rewrite !lookup_insert_ne.
  - eexists. split; [done|]. intros path Hckpt Hbest. by rewrite lookup_insert_ne.
Qed.

(** X25.  Checkpoint files of different epochs have different paths, so
    [save_checkpoint] for one epoch, best or not, returns and leaves the
    checkpoint file of every other epoch as it was: checkpoints
    accumulate. *)
Theorem save_checkpoint_other_epochs self model (is_best : bool) epoch epoch' fs :
  epoch' ≠ epoch →
  checkpoint_path self epoch' ≠ checkpoint_path self epoch ∧
  ∃ fs', save_checkpoint state_bytes self model is_best epoch fs = Ok fs' ∧
         fs' !! checkpoint_path self epoch' = fs !! checkpoint_path self epoch'.
Proof.
  intros Hne.
  assert (checkpoint_path self epoch' ≠ checkpoint_path self epoch) as Hpath
    by (by intros ?%checkpoint_path_inj).
  split; [done|].
  destruct (save_checkpoint_returns self model is_best epoch fs) as (fs' & Hrun & Hframe).
  exists fs'. split; [done|]. apply Hframe; [done|].
  apply checkpoint_path_not_best.
Qed.

(** X26.  [save_instructions] writes the dumped instructions to
    [instructions.json] in the folder and changes no other file; that file
    is neither a checkpoint nor the best-model file, and [save_checkpoint]
    never changes it. *)
Theorem save_instructions_frame self fs :
  save_instructions json_dump self fs !! instructions_path self
  = Some (json_dump (instructions self)) ∧
  (∀ path, path ≠ instructions_path self →
     save_instructions json_dump self fs !! path = fs !! path) ∧
  (∀ epoch, save_instructions json_dump self fs !! checkpoint_path self epoch
            = fs !! checkpoint_path self epoch) ∧
  save_instructions json_dump self fs !! best_path self = fs !! best_path self ∧
  (∀ model is_best epoch,
     ∃ fs', save_checkpoint state_bytes self model is_best epoch fs = Ok fs' ∧
            fs' !! instructions_path self = fs !! instructions_path self).
Proof.
  unfold save_instructions. split; [apply lookup_insert_eq|].
  split; [intros path Hpath; by rewrite lookup_insert_ne|].
  split.
  { intros epoch. rewrite lookup_insert_ne; [done|].
    apply instructions_path_not_checkpoint. }
  split.
  { rewrite lookup_insert_ne; [done|]. apply instructions_path_not_best. }
  intros model is_best epoch.
  destruct (save_checkpoint_returns self model is_best epoch fs) as (fs' & Hrun & Hframe).
  exists fs'. split; [done|].
  apply Hframe; [apply instructions_path_not_checkpoint|apply instructions_path_not_best].
Qed.
End saver_more.

Lemma save_checkpoint_other_epochs_witness :
  checkpoint_path (mk_Saver tt "run"%string) 3 ≠ checkpoint_path (mk_Saver tt "run"%string) 4 ∧
  ∃ fs', save_checkpoint (λ n : nat, n) (mk_Saver tt "run"%string) 7%nat true 4 ∅ = Ok fs' ∧
         fs' !! checkpoint_path (mk_Saver tt "run"%string) 3
         = (∅ : gmap string nat) !! checkpoint_path (mk_Saver tt "run"%string) 3.
Proof.
  apply (save_checkpoint_other_epochs (λ n : nat, n) (mk_Saver tt "run"%string)
           7%nat true 4 3 ∅).
  lia.
Defined.
